(** * go-equalizer: biquad filters after the RBJ audio EQ cookbook

    A shallow embedding of package [equalizer] (the file declaring
    [Filter], [Apply] and the eight [New...] constructors).

    - [float64] is Rocq's primitive binary64 [float]; Go's [+ - * /] on
      [float64] are the IEEE 754 round-to-nearest-even operations, the same as
      [PrimFloat.add], [sub], [mul], [div].  No operation is fused: each
      is rounded on its own, as in the default build for amd64.
    - [*Filter] is a location in a heap of [Filter] structs; the package-level
      variable [p] lives next to the heap in the program state [Env].
    - functions that read or write [p] or dereference a [*Filter] are
      computations in the monad [M]; dereferencing a location that holds no
      struct (Go's nil-pointer panic) is the failure [None].
    - the functions of Go's package [math] are an interface, [Math].
    - a NaN carries no payload: binary64 values are equal when they are the
      same number, the same zero, the same infinity, or both NaN. *)

From Stdlib Require Import Floats.
From stdpp Require Import base option list gmap.

Module equalizer.

Local Open Scope float_scope.

(** ** package math, as used by the package *)

Class Math : Type := {
  Sin : float → float;
  Cos : float → float;
  Sinh : float → float;
  Log : float → float;
  Pow : float → float → float;
  Sqrt : float → float
}.

(** ** Data *)

(** [type FilterName int], with the constants numbered by [iota]. *)
Inductive FilterName : Type :=
  | Undefined
  | LowPass
  | HighPass
  | AllPass
  | BandPass
  | BandReject
  | LowShelf
  | HighShelf
  | Peaking.

#[export] Instance FilterName_eq_dec : EqDecision FilterName.
Proof. solve_decision. Defined.

(** The [int] behind each constant. *)
Definition FilterName_int (n : FilterName) : Z :=
  match n with
  | Undefined => 0
  | LowPass => 1
  | HighPass => 2
  | AllPass => 3
  | BandPass => 4
  | BandReject => 5
  | LowShelf => 6
  | HighShelf => 7
  | Peaking => 8
  end.

(** [const Pi = 3.1415926535897932384626433]: an untyped constant, rounded
    to the nearest [float64] where it is assigned to [p]. *)
#[warnings="-inexact-float"] Definition Pi : float := 3.1415926535897932384626433.

(** [type Filter struct]. *)
Record Filter : Type := mkFilter {
  name : FilterName;
  in1 : float;
  in2 : float;
  out1 : float;
  out2 : float;
  a0 : float;
  a1 : float;
  a2 : float;
  b0 : float;
  b1 : float;
  b2 : float
}.

(** Field assignment [f.in1 = v] and its three siblings. *)
Definition set_in1 (v : float) (s : Filter) : Filter :=
  mkFilter (name s) v (in2 s) (out1 s) (out2 s)
           (a0 s) (a1 s) (a2 s) (b0 s) (b1 s) (b2 s).
Definition set_in2 (v : float) (s : Filter) : Filter :=
  mkFilter (name s) (in1 s) v (out1 s) (out2 s)
           (a0 s) (a1 s) (a2 s) (b0 s) (b1 s) (b2 s).
Definition set_out1 (v : float) (s : Filter) : Filter :=
  mkFilter (name s) (in1 s) (in2 s) v (out2 s)
           (a0 s) (a1 s) (a2 s) (b0 s) (b1 s) (b2 s).
Definition set_out2 (v : float) (s : Filter) : Filter :=
  mkFilter (name s) (in1 s) (in2 s) (out1 s) v
           (a0 s) (a1 s) (a2 s) (b0 s) (b1 s) (b2 s).

(** The zero value of [Filter]: what [var f Filter], [new(Filter)] and the
    omitted fields of a composite literal hold. *)
Definition zero_Filter : Filter :=
  mkFilter Undefined 0 0 0 0 0 0 0 0 0 0.

(** ** Program state *)

Definition loc : Type := positive.

Record Env : Type := mkEnv {
  p : float;
  heap : gmap loc Filter
}.

(** [var ( p = Pi )] and no struct allocated yet. *)
Definition init_Env : Env := mkEnv Pi ∅.

Definition M (A : Type) : Type := Env → option (A * Env).

#[export] Instance M_ret : MRet M := λ A x σ, Some (x, σ).
#[export] Instance M_bind : MBind M := λ A B k m σ,
  match m σ with
  | Some (x, σ') => k x σ'
  | None => None
  end.

(** Reading and writing the package variable [p]. *)
Definition read_p : M float := λ σ, Some (p σ, σ).
Definition write_p (v : float) : M unit := λ σ, Some (tt, mkEnv v (heap σ)).

(** [&Filter{...}]: a fresh location holding the struct. *)
Definition alloc (s : Filter) : M loc := λ σ,
  let l := fresh (dom (heap σ)) in
  Some (l, mkEnv (p σ) (<[l := s]> (heap σ))).

(** [f.x] for a field (or any expression over the fields of [*f]). *)
Definition rd {A : Type} (f : loc) (e : Filter → A) : M A := λ σ,
  match heap σ !! f with
  | Some s => Some (e s, σ)
  | None => None
  end.

(** [f.x = v], for the setter of field [x]. *)
Definition wr (f : loc) (set : float → Filter → Filter) (v : float) : M unit :=
  λ σ,
  match heap σ !! f with
  | Some s => Some (tt, mkEnv (p σ) (<[f := set v s]> (heap σ)))
  | None => None
  end.

(** ** Functions of the package *)

(** [func SetPi(value float64)] *)
Definition SetPi (value : float) : M unit := write_p value.

(** [func UnsetPi()] *)
Definition UnsetPi : M unit := write_p Pi.

(** [func (f *Filter) IsZero() bool] *)
Definition IsZero (f : loc) : M bool :=
  rd f (λ s, bool_decide (name s = Undefined)).

(** [func (f *Filter) Name() FilterName] *)
Definition Name (f : loc) : M FilterName := rd f name.

(** [func (f *Filter) Apply(input float64) float64] *)
Definition Apply (f : loc) (input : float) : M float :=
  output ← rd f (λ s, (b0 s / a0 s) * input +
                      (b1 s / a0 s) * in1 s +
                      (b2 s / a0 s) * in2 s -
                      (a1 s / a0 s) * out1 s -
                      (a2 s / a0 s) * out2 s);
  (v ← rd f in1; wr f set_in2 v);;
  wr f set_in1 input;;
  (v ← rd f out1; wr f set_out2 v);;
  wr f set_out1 output;;
  mret output.

Section constructors.
Context `{Math}.

(** [func NewLowPass(sampleRate, frequency, q float64) *Filter] *)
Definition NewLowPass (sampleRate frequency q : float) : M loc :=
  p ← read_p;
  let w0 := 2.0 * p * frequency / sampleRate in
  let alpha := Sin w0 / (2.0 * q) in
  alloc {| name := LowPass;
           in1 := 0; in2 := 0; out1 := 0; out2 := 0;
           a0 := 1.0 + alpha;
           a1 := -2.0 * Cos w0;
           a2 := 1.0 - alpha;
           b0 := (1.0 - Cos w0) / 2.0;
           b1 := 1.0 - Cos w0;
           b2 := (1.0 - Cos w0) / 2.0 |}.

(** [func NewHighPass(sampleRate, frequency, q float64) *Filter] *)
Definition NewHighPass (sampleRate frequency q : float) : M loc :=
  p ← read_p;
  let w0 := 2.0 * p * frequency / sampleRate in
  let alpha := Sin w0 / (2.0 * q) in
  alloc {| name := HighPass;
           in1 := 0; in2 := 0; out1 := 0; out2 := 0;
           a0 := 1.0 + alpha;
           a1 := -2.0 * Cos w0;
           a2 := 1.0 - alpha;
           b0 := (1.0 + Cos w0) / 2.0;
           b1 := -1.0 * (1.0 + Cos w0);
           b2 := (1.0 + Cos w0) / 2.0 |}.

(** [func NewAllPass(sampleRate, frequency, q float64) *Filter] *)
Definition NewAllPass (sampleRate frequency q : float) : M loc :=
  p ← read_p;
  let w0 := 2.0 * p * frequency / sampleRate in
  let alpha := Sin w0 / (2.0 * q) in
  alloc {| name := AllPass;
           in1 := 0; in2 := 0; out1 := 0; out2 := 0;
           a0 := 1.0 + alpha;
           a1 := -2.0 * Cos w0;
           a2 := 1.0 - alpha;
           b0 := 1.0 - alpha;
           b1 := -2.0 * Cos w0;
           b2 := 1.0 + alpha |}.

(** [func NewBandPass(sampleRate, frequency, width float64) *Filter] *)
Definition NewBandPass (sampleRate frequency width : float) : M loc :=
  p ← read_p;
  let w0 := 2.0 * p * frequency / sampleRate in
  let alpha := Sin w0 * Sinh (Log 2.0 / 2.0 * width * w0 / Sin w0) in
  alloc {| name := BandPass;
           in1 := 0; in2 := 0; out1 := 0; out2 := 0;
           a0 := 1.0 + alpha;
           a1 := -2.0 * Cos w0;
           a2 := 1.0 - alpha;
           b0 := alpha;
           b1 := 0.0;
           b2 := -1.0 * alpha |}.

(** [func NewBandReject(sampleRate, frequency, width float64) *Filter] *)
Definition NewBandReject (sampleRate frequency width : float) : M loc :=
  p ← read_p;
  let w0 := 2.0 * p * frequency / sampleRate in
  let alpha := Sin w0 * Sinh (Log 2.0 / 2.0 * width * w0 / Sin w0) in
  alloc {| name := BandReject;
           in1 := 0; in2 := 0; out1 := 0; out2 := 0;
           a0 := 1.0 + alpha;
           a1 := -2.0 * Cos w0;
           a2 := 1.0 - alpha;
           b0 := 1.0;
           b1 := -2.0 * Cos w0;
           b2 := 1.0 |}.

(** [func NewLowShelf(sampleRate, frequency, q, gain float64) *Filter] *)
Definition NewLowShelf (sampleRate frequency q gain : float) : M loc :=
  p ← read_p;
  let w0 := 2.0 * p * frequency / sampleRate in
  let a := Pow 10.0 (gain / 40.0) in
  let beta := Sqrt a / q in
  alloc {| name := LowShelf;
           in1 := 0; in2 := 0; out1 := 0; out2 := 0;
           a0 := (a + 1.0) + (a - 1.0) * Cos w0 + beta * Sin w0;
           a1 := -2.0 * ((a - 1.0) + (a + 1.0) * Cos w0);
           a2 := (a + 1.0) + (a - 1.0) * Cos w0 - beta * Sin w0;
           b0 := a * ((a + 1.0) - (a - 1.0) * Cos w0 + beta * Sin w0);
           b1 := 2.0 * a * ((a - 1.0) - (a + 1.0) * Cos w0);
           b2 := a * ((a + 1.0) - (a - 1.0) * Cos w0 - beta * Sin w0) |}.

(** [func NewHighShelf(sampleRate, frequency, q, gain float64) *Filter] *)
Definition NewHighShelf (sampleRate frequency q gain : float) : M loc :=
  p ← read_p;
  let w0 := 2.0 * p * frequency / sampleRate in
  let a := Pow 10.0 (gain / 40.0) in
  let beta := Sqrt a / q in
  alloc {| name := HighShelf;
           in1 := 0; in2 := 0; out1 := 0; out2 := 0;
           a0 := (a + 1.0) - (a - 1.0) * Cos w0 + beta * Sin w0;
           a1 := 2.0 * ((a - 1.0) - (a + 1.0) * Cos w0);
           a2 := (a + 1.0) - (a - 1.0) * Cos w0 - beta * Sin w0;
           b0 := a * ((a + 1.0) + (a - 1.0) * Cos w0 + beta * Sin w0);
           b1 := -2.0 * a * ((a - 1.0) + (a + 1.0) * Cos w0);
           b2 := a * ((a + 1.0) + (a - 1.0) * Cos w0 - beta * Sin w0) |}.

(** [func NewPeaking(sampleRate, frequency, width, gain float64) *Filter] *)
Definition NewPeaking (sampleRate frequency width gain : float) : M loc :=
  p ← read_p;
  let w0 := 2.0 * p * frequency / sampleRate in
  let alpha := Sin w0 * Sinh (Log 2.0 / 2.0 * width * w0 / Sin w0) in
  let a := Pow 10.0 (gain / 40.0) in
  alloc {| name := Peaking;
           in1 := 0; in2 := 0; out1 := 0; out2 := 0;
           a0 := 1.0 + alpha / a;
           a1 := -2.0 * Cos w0;
           a2 := 1.0 - alpha / a;
           b0 := 1.0 + alpha * a;
           b1 := -2.0 * Cos w0;
           b2 := 1.0 - alpha * a |}.

End constructors.

(** ** Callers *)

(** A call of one of the eight constructors, with its arguments. *)
Inductive Call : Type :=
  | CallLowPass (sampleRate frequency q : float)
  | CallHighPass (sampleRate frequency q : float)
  | CallAllPass (sampleRate frequency q : float)
  | CallBandPass (sampleRate frequency width : float)
  | CallBandReject (sampleRate frequency width : float)
  | CallLowShelf (sampleRate frequency q gain : float)
  | CallHighShelf (sampleRate frequency q gain : float)
  | CallPeaking (sampleRate frequency width gain : float).

Definition call `{Math} (c : Call) : M loc :=
  match c with
  | CallLowPass sr fr q => NewLowPass sr fr q
  | CallHighPass sr fr q => NewHighPass sr fr q
  | CallAllPass sr fr q => NewAllPass sr fr q
  | CallBandPass sr fr w => NewBandPass sr fr w
  | CallBandReject sr fr w => NewBandReject sr fr w
  | CallLowShelf sr fr q g => NewLowShelf sr fr q g
  | CallHighShelf sr fr q g => NewHighShelf sr fr q g
  | CallPeaking sr fr w g => NewPeaking sr fr w g
  end.

(** The [FilterName] constant that carries the constructor's name. *)
Definition kind (c : Call) : FilterName :=
  match c with
  | CallLowPass _ _ _ => LowPass
  | CallHighPass _ _ _ => HighPass
  | CallAllPass _ _ _ => AllPass
  | CallBandPass _ _ _ => BandPass
  | CallBandReject _ _ _ => BandReject
  | CallLowShelf _ _ _ _ => LowShelf
  | CallHighShelf _ _ _ _ => HighShelf
  | CallPeaking _ _ _ _ => Peaking
  end.

(** The struct a constructor call builds when [p] holds [pi]: read back from
    a run of the call on an empty heap. *)
Definition built `{Math} (c : Call) (pi : float) : Filter :=
  match call c (mkEnv pi ∅) with
  | Some (f, σ) => default zero_Filter (heap σ !! f)
  | None => zero_Filter
  end.

(** The caller's loop, [for i := range input { output[i] = f.Apply(input[i]) }]:
    one call per sample, in order. *)
Fixpoint Apply_all (f : loc) (input : list float) : M (list float) :=
  match input with
  | [] => mret []
  | x :: rest =>
      y ← Apply f x;
      ys ← Apply_all f rest;
      mret (y :: ys)
  end.

(** ** Auxiliary definitions for the statements *)

(** The sample [Apply] returns on a struct [s], and the struct it leaves. *)
Definition Apply_output (s : Filter) (input : float) : float :=
  (b0 s / a0 s) * input + (b1 s / a0 s) * in1 s + (b2 s / a0 s) * in2 s -
  (a1 s / a0 s) * out1 s - (a2 s / a0 s) * out2 s.

Definition Apply_state (s : Filter) (input : float) : Filter :=
  {| name := name s;
     in1 := input; in2 := in1 s;
     out1 := Apply_output s input; out2 := out1 s;
     a0 := a0 s; a1 := a1 s; a2 := a2 s;
     b0 := b0 s; b1 := b1 s; b2 := b2 s |}.

(** The struct after a run of calls, and the samples the run returns. *)
Fixpoint run_state (s : Filter) (input : list float) : Filter :=
  match input with
  | [] => s
  | x :: rest => run_state (Apply_state s x) rest
  end.

Fixpoint run_outputs (s : Filter) (input : list float) : list float :=
  match input with
  | [] => []
  | x :: rest => Apply_output s x :: run_outputs (Apply_state s x) rest
  end.

(** The sample [i] places before the end of a stream; 0 when the stream is
    shorter than that. *)
Definition recent (l : list float) (i : nat) : float :=
  default 0 (reverse l !! i).

(** The history of [s] holds the last two samples of the inputs [xs] seen and
    of the outputs [ys] produced so far. *)
Definition tracks (xs ys : list float) (s : Filter) : Prop :=
  in1 s = recent xs 0 ∧ in2 s = recent xs 1 ∧
  out1 s = recent ys 0 ∧ out2 s = recent ys 1.

Definition history_zero (s : Filter) : Prop :=
  in1 s = 0 ∧ in2 s = 0 ∧ out1 s = 0 ∧ out2 s = 0.

Definition history_nan (s : Filter) : bool :=
  is_nan (in1 s) || is_nan (in2 s) || is_nan (out1 s) || is_nan (out2 s).

Definition same_coefficients (s s' : Filter) : Prop :=
  name s' = name s ∧
  a0 s' = a0 s ∧ a1 s' = a1 s ∧ a2 s' = a2 s ∧
  b0 s' = b0 s ∧ b1 s' = b1 s ∧ b2 s' = b2 s.

(** A value that is a zero of either sign or NaN: what a product with a
    zero factor can be, and what stays so under further products and
    quotients. *)
Definition zero_or_nan (x : float) : bool := is_zero x || is_nan x.

Definition SFzero_or_nan (x : spec_float) : Prop :=
  match x with
  | S754_zero _ | S754_nan => True
  | _ => False
  end.

(** ** An instance of [Math] to evaluate with

    Power series summed in binary64, with the special cases package [math]
    documents ([Sin(±0) = ±0], [Sin(±Inf) = NaN], [Sinh(NaN) = NaN], ...).
    Close to the real functions for small arguments; it stands for the
    library wherever a statement is evaluated on concrete samples. *)

(** [term + next term + ...], [n] terms, the next term made by [step] from
    the index and the current one. *)
Fixpoint partial_sum (n : nat) (step : float → float → float)
    (k term : float) : float :=
  match n with
  | O => 0
  | S n' => term + partial_sum n' step (k + 1) (step k term)
  end.

Definition series_sin (x : float) : float :=
  if is_zero x || is_nan x then x
  else if is_infinity x then nan
  else partial_sum 12
         (λ k t, - t * x * x / ((2 * k + 2) * (2 * k + 3))) 0 x.

Definition series_cos (x : float) : float :=
  if is_nan x || is_infinity x then nan
  else partial_sum 12
         (λ k t, - t * x * x / ((2 * k + 1) * (2 * k + 2))) 0 1.

Definition series_sinh (x : float) : float :=
  if is_zero x || is_nan x || is_infinity x then x
  else partial_sum 12
         (λ k t, t * x * x / ((2 * k + 2) * (2 * k + 3))) 0 x.

Definition series_exp (x : float) : float :=
  if is_nan x then nan
  else partial_sum 24 (λ k t, t * x / (k + 1)) 0 1.

(** [ln x = 2 atanh ((x - 1) / (x + 1))] for [x > 0]. *)
Definition series_log (x : float) : float :=
  if is_nan x || (x <? 0) then nan
  else if is_zero x then neg_infinity
  else if is_infinity x then x
  else
    let z := (x - 1) / (x + 1) in
    2 * partial_sum 80
          (λ k t, t * z * z * (2 * k + 1) / (2 * k + 3)) 0 z.

Definition series_pow (x y : float) : float :=
  if is_zero y then 1
  else series_exp (y * series_log x).

Definition series_Math : Math :=
  {| Sin := series_sin;
     Cos := series_cos;
     Sinh := series_sinh;
     Log := series_log;
     Pow := series_pow;
     Sqrt := sqrt |}.

(** ** The example program

    The body of the loop of [func main()] in example/main.go, between the
    decoding of a sample and the encoding of its output: the sample goes to
    [f0] or to [f1], [ch] telling the channel.  The samples are a list here
    and so are the outputs; reading the file, slicing it (and the panics of
    both) and writing the bytes are not part of it. *)

Fixpoint main_loop (f0 f1 : loc) (ch : Z) (samples : list float)
    : M (list float) :=
  match samples with
  | [] => mret []
  | input :: rest =>
      output ← (if bool_decide (ch = 0%Z) then Apply f0 input
                 else Apply f1 input);
      outputs ← main_loop f0 f1 ((ch + 1) `rem` 2)%Z rest;
      mret (output :: outputs)
  end.

(** ** More auxiliary definitions for the statements *)

(** The samples at positions 0, 2, 4, ... of an interleaved stream: its
    left channel; the right channel is [every_other (tail l)]. *)
Fixpoint every_other (l : list float) : list float :=
  match l with
  | [] => []
  | [x] => [x]
  | x :: _ :: rest => x :: every_other rest
  end.

(** What the loop of [main] returns when the filter whose turn it is holds
    [sa] and the other one holds [sb]. *)
Fixpoint loop_outputs (sa sb : Filter) (samples : list float) : list float :=
  match samples with
  | [] => []
  | x :: rest => Apply_output sa x :: loop_outputs sb (Apply_state sa x) rest
  end.

Definition coefficient_nan (s : Filter) : bool :=
  is_nan (a0 s) || is_nan (a1 s) || is_nan (a2 s) ||
  is_nan (b0 s) || is_nan (b1 s) || is_nan (b2 s).

Definition history_is_zero (s : Filter) : bool :=
  is_zero (in1 s) && is_zero (in2 s) && is_zero (out1 s) && is_zero (out2 s).

(** The four quotients [Apply] multiplies the history with are finite. *)
Definition history_gains_finite (s : Filter) : bool :=
  is_finite (b1 s / a0 s) && is_finite (b2 s / a0 s) &&
  is_finite (a1 s / a0 s) && is_finite (a2 s / a0 s).

(** The same number: equal, or two zeros whatever their signs. *)
Definition same_value (x y : float) : Prop :=
  x = y ∨ (is_zero x = true ∧ is_zero y = true).

Definition SFnonfinite (x : spec_float) : Prop :=
  match x with
  | S754_infinity _ | S754_nan => True
  | _ => False
  end.

(** ** The coefficient table

    The struct each constructor is to build, with the value used for π a
    parameter [pi]: [w0 = 2·pi·frequency/sampleRate];
    [alpha = sin(w0)/(2·q)] for the constant-Q kinds, and
    [alpha = sin(w0)·sinh((ln 2/2)·width·w0/sin(w0))] for the bandwidth
    kinds; [A = 10^(gain/40)] and [beta = sqrt(A)/q]; then the row of the
    kind, the history zero. *)
Definition cookbook `{Math} (c : Call) (pi : float) : Filter :=
  match c with
  | CallLowPass sampleRate frequency q =>
      let w0 := 2 * pi * frequency / sampleRate in
      let alpha := Sin w0 / (2 * q) in
      mkFilter LowPass 0 0 0 0
        (1 + alpha) (-2 * Cos w0) (1 - alpha)
        ((1 - Cos w0) / 2) (1 - Cos w0) ((1 - Cos w0) / 2)
  | CallHighPass sampleRate frequency q =>
      let w0 := 2 * pi * frequency / sampleRate in
      let alpha := Sin w0 / (2 * q) in
      mkFilter HighPass 0 0 0 0
        (1 + alpha) (-2 * Cos w0) (1 - alpha)
        ((1 + Cos w0) / 2) (-1 * (1 + Cos w0)) ((1 + Cos w0) / 2)
  | CallAllPass sampleRate frequency q =>
      let w0 := 2 * pi * frequency / sampleRate in
      let alpha := Sin w0 / (2 * q) in
      mkFilter AllPass 0 0 0 0
        (1 + alpha) (-2 * Cos w0) (1 - alpha)
        (1 - alpha) (-2 * Cos w0) (1 + alpha)
  | CallBandPass sampleRate frequency width =>
      let w0 := 2 * pi * frequency / sampleRate in
      let alpha := Sin w0 * Sinh (Log 2 / 2 * width * w0 / Sin w0) in
      mkFilter BandPass 0 0 0 0
        (1 + alpha) (-2 * Cos w0) (1 - alpha)
        alpha 0 (-1 * alpha)
  | CallBandReject sampleRate frequency width =>
      let w0 := 2 * pi * frequency / sampleRate in
      let alpha := Sin w0 * Sinh (Log 2 / 2 * width * w0 / Sin w0) in
      mkFilter BandReject 0 0 0 0
        (1 + alpha) (-2 * Cos w0) (1 - alpha)
        1 (-2 * Cos w0) 1
  | CallLowShelf sampleRate frequency q gain =>
      let w0 := 2 * pi * frequency / sampleRate in
      let A := Pow 10 (gain / 40) in
      let beta := Sqrt A / q in
      mkFilter LowShelf 0 0 0 0
        ((A + 1) + (A - 1) * Cos w0 + beta * Sin w0)
        (-2 * ((A - 1) + (A + 1) * Cos w0))
        ((A + 1) + (A - 1) * Cos w0 - beta * Sin w0)
        (A * ((A + 1) - (A - 1) * Cos w0 + beta * Sin w0))
        (2 * A * ((A - 1) - (A + 1) * Cos w0))
        (A * ((A + 1) - (A - 1) * Cos w0 - beta * Sin w0))
  | CallHighShelf sampleRate frequency q gain =>
      let w0 := 2 * pi * frequency / sampleRate in
      let A := Pow 10 (gain / 40) in
      let beta := Sqrt A / q in
      mkFilter HighShelf 0 0 0 0
        ((A + 1) - (A - 1) * Cos w0 + beta * Sin w0)
        (2 * ((A - 1) - (A + 1) * Cos w0))
        ((A + 1) - (A - 1) * Cos w0 - beta * Sin w0)
        (A * ((A + 1) + (A - 1) * Cos w0 + beta * Sin w0))
        (-2 * A * ((A - 1) + (A + 1) * Cos w0))
        (A * ((A + 1) + (A - 1) * Cos w0 - beta * Sin w0))
  | CallPeaking sampleRate frequency width gain =>
      let w0 := 2 * pi * frequency / sampleRate in
      let alpha := Sin w0 * Sinh (Log 2 / 2 * width * w0 / Sin w0) in
      let A := Pow 10 (gain / 40) in
      mkFilter Peaking 0 0 0 0
        (1 + alpha / A) (-2 * Cos w0) (1 - alpha / A)
        (1 + alpha * A) (-2 * Cos w0) (1 - alpha * A)
  end.

(** ** Facts about binary64 arithmetic *)

Section float_facts.

Lemma SFcompare_refl_finite (s : bool) (m : positive) (e : Z) :
  SFcompare (S754_finite s m e) (S754_finite s m e) = Some Eq.
Proof.
  simpl. rewrite Z.compare_refl, Pos.compare_cont_refl.
  by destruct s.
Qed.

Lemma is_nan_Prim2SF (x : float) :
  is_nan x = true ↔ Prim2SF x = S754_nan.
Proof.
  unfold is_nan. rewrite FloatAxioms.eqb_spec. unfold SFeqb.
  destruct (Prim2SF x) as [[]|[]| |s m e]; try done.
  rewrite SFcompare_refl_finite. done.
Qed.

Lemma is_zero_Prim2SF (x : float) :
  is_zero x = true ↔ ∃ s, Prim2SF x = S754_zero s.
Proof.
  unfold is_zero. rewrite FloatAxioms.eqb_spec. unfold SFeqb.
  change (Prim2SF 0) with (S754_zero false).
  destruct (Prim2SF x) as [s|s| |s m e]; simpl.
  - naive_solver.
  - split; [by destruct s|]. by intros [? ?].
  - split; [done|]. by intros [? ?].
  - split; [by destruct s|]. by intros [? ?].
Qed.

(** NaN is absorbing for the four arithmetic operations. *)
Lemma add_nan_l (x y : float) : is_nan x = true → is_nan (x + y) = true.
Proof.
  rewrite !is_nan_Prim2SF, add_spec. intros ->. reflexivity.
Qed.

Lemma add_nan_r (x y : float) : is_nan y = true → is_nan (x + y) = true.
Proof.
  rewrite !is_nan_Prim2SF, add_spec. intros ->.
  by destruct (Prim2SF x) as [[]|[]| |].
Qed.

Lemma sub_nan_l (x y : float) : is_nan x = true → is_nan (x - y) = true.
Proof.
  rewrite !is_nan_Prim2SF, sub_spec. intros ->. reflexivity.
Qed.

Lemma sub_nan_r (x y : float) : is_nan y = true → is_nan (x - y) = true.
Proof.
  rewrite !is_nan_Prim2SF, sub_spec. intros ->.
  by destruct (Prim2SF x) as [[]|[]| |].
Qed.

Lemma mul_nan_r (x y : float) : is_nan y = true → is_nan (x * y) = true.
Proof.
  rewrite !is_nan_Prim2SF, mul_spec. intros ->.
  by destruct (Prim2SF x) as [[]|[]| |].
Qed.

Lemma div_nan_l (x y : float) : is_nan x = true → is_nan (x / y) = true.
Proof.
  rewrite !is_nan_Prim2SF, div_spec. intros ->. reflexivity.
Qed.

Lemma is_nan_not_finite (x : float) : is_nan x = true → is_finite x = false.
Proof. unfold is_finite. by intros ->. Qed.


Lemma zero_or_nan_Prim2SF (x : float) :
  zero_or_nan x = true ↔ SFzero_or_nan (Prim2SF x).
Proof.
  unfold zero_or_nan. rewrite orb_true_iff, is_zero_Prim2SF, is_nan_Prim2SF.
  destruct (Prim2SF x) as [s|s| |s m e]; simpl.
  - split; [done|]. intros _. left. by exists s.
  - split; [|done]. by intros [[? ?]|?].
  - split; [done|]. intros _. by right.
  - split; [|done]. by intros [[? ?]|?].
Qed.

Lemma mul_zero_or_nan_r (x y : float) :
  zero_or_nan y = true → zero_or_nan (x * y) = true.
Proof.
  rewrite !zero_or_nan_Prim2SF, mul_spec.
  by destruct (Prim2SF x), (Prim2SF y).
Qed.

Lemma div_zero_or_nan_l (x y : float) :
  zero_or_nan x = true → zero_or_nan (x / y) = true.
Proof.
  rewrite !zero_or_nan_Prim2SF, div_spec.
  by destruct (Prim2SF x), (Prim2SF y).
Qed.

Lemma div_zero_or_nan_zero (x y : float) :
  zero_or_nan x = true → is_zero y = true → is_nan (x / y) = true.
Proof.
  rewrite zero_or_nan_Prim2SF, is_zero_Prim2SF, is_nan_Prim2SF, div_spec.
  intros Hx [s ->]. by destruct (Prim2SF x).
Qed.

End float_facts.

(** ** Running the operations on a heap *)


Section runs.

Lemma rd_run {A : Type} (σ : Env) (f : loc) (s : Filter) (e : Filter → A) :
  heap σ !! f = Some s → rd f e σ = Some (e s, σ).
Proof. unfold rd. by intros ->. Qed.

Lemma wr_run (σ : Env) (f : loc) (s : Filter)
    (set : float → Filter → Filter) (v : float) :
  heap σ !! f = Some s →
  wr f set v σ = Some (tt, mkEnv (p σ) (<[f := set v s]> (heap σ))).
Proof. unfold wr. by intros ->. Qed.

Lemma bind_run {A B : Type} (m : M A) (k : A → M B) (σ σ' : Env) (x : A) :
  m σ = Some (x, σ') → (m ≫= k) σ = k x σ'.
Proof. unfold mbind, M_bind. by intros ->. Qed.

Lemma bind_fail {A B : Type} (m : M A) (k : A → M B) (σ : Env) :
  m σ = None → (m ≫= k) σ = None.
Proof. unfold mbind, M_bind. by intros ->. Qed.

Lemma Apply_run (σ : Env) (f : loc) (s : Filter) (input : float) :
  heap σ !! f = Some s →
  Apply f input σ =
    Some (Apply_output s input,
          mkEnv (p σ) (<[f := Apply_state s input]> (heap σ))).
Proof.
  intros Hf. unfold Apply.
  rewrite (bind_run _ _ _ _ _ (rd_run σ f s _ Hf)).
  erewrite bind_run; [|erewrite bind_run by (by apply rd_run); by apply wr_run].
  erewrite bind_run; [|apply wr_run; simpl; apply lookup_insert_eq].
  erewrite bind_run;
    [|erewrite bind_run by (apply rd_run; simpl; apply lookup_insert_eq);
      apply wr_run; simpl; apply lookup_insert_eq].
  erewrite bind_run; [|apply wr_run; simpl; apply lookup_insert_eq].
  simpl. rewrite !insert_insert_eq. reflexivity.
Qed.

Lemma Apply_nil (σ : Env) (f : loc) (input : float) :
  heap σ !! f = None → Apply f input σ = None.
Proof.
  intros Hf. unfold Apply. apply bind_fail. unfold rd. by rewrite Hf.
Qed.

End runs.

(** ** Constructor calls and runs of [Apply] *)

Section call_facts.
Context `{Math}.

Lemma alloc_fresh (σ : Env) : heap σ !! fresh (dom (heap σ)) = None.
Proof. apply not_elem_of_dom, is_fresh. Qed.

Lemma call_alloc (c : Call) (σ : Env) : call c σ = alloc (built c (p σ)) σ.
Proof.
  destruct c; unfold built; simpl;
    unfold NewLowPass, NewHighPass, NewAllPass, NewBandPass, NewBandReject,
      NewLowShelf, NewHighShelf, NewPeaking, mbind, M_bind, read_p, alloc;
    simpl; by rewrite lookup_insert_eq.
Qed.

Lemma call_run (c : Call) (σ : Env) :
  ∃ f, heap σ !! f = None ∧
       call c σ = Some (f, mkEnv (p σ) (<[f := built c (p σ)]> (heap σ))).
Proof.
  exists (fresh (dom (heap σ))). split; [apply alloc_fresh|].
  by rewrite call_alloc.
Qed.

Lemma built_name (c : Call) (pi : float) : name (built c pi) = kind c.
Proof.
  destruct c; unfold built; simpl;
    unfold NewLowPass, NewHighPass, NewAllPass, NewBandPass, NewBandReject,
      NewLowShelf, NewHighShelf, NewPeaking, mbind, M_bind, read_p, alloc;
    simpl; by rewrite lookup_insert_eq.
Qed.

Lemma built_history (c : Call) (pi : float) : history_zero (built c pi).
Proof.
  destruct c; unfold built; simpl;
    unfold NewLowPass, NewHighPass, NewAllPass, NewBandPass, NewBandReject,
      NewLowShelf, NewHighShelf, NewPeaking, mbind, M_bind, read_p, alloc;
    simpl; by rewrite lookup_insert_eq.
Qed.

Lemma call_cookbook (c : Call) (σ : Env) :
  call c σ = alloc (cookbook c (p σ)) σ.
Proof. by destruct c. Qed.

Lemma kind_not_Undefined (c : Call) : kind c ≠ Undefined.
Proof. by destruct c. Qed.

End call_facts.

Section stream_facts.

Lemma Env_insert_id (σ : Env) (f : loc) (s : Filter) :
  heap σ !! f = Some s → mkEnv (p σ) (<[f := s]> (heap σ)) = σ.
Proof. intros Hf. rewrite insert_id by done. by destruct σ. Qed.

Lemma Apply_all_run (σ : Env) (f : loc) (s : Filter) (xs : list float) :
  heap σ !! f = Some s →
  Apply_all f xs σ =
    Some (run_outputs s xs, mkEnv (p σ) (<[f := run_state s xs]> (heap σ))).
Proof.
  revert σ s. induction xs as [|x xs IH]; intros σ s Hf; simpl.
  - by rewrite Env_insert_id.
  - rewrite (bind_run _ _ _ _ _ (Apply_run σ f s x Hf)).
    erewrite bind_run; [|apply IH; simpl; apply lookup_insert_eq].
    simpl. by rewrite insert_insert_eq.
Qed.

Lemma run_outputs_length (s : Filter) (xs : list float) :
  length (run_outputs s xs) = length xs.
Proof.
  revert s. induction xs as [|x xs IH]; intros s; simpl; [done|].
  by rewrite IH.
Qed.

Lemma run_state_app (s : Filter) (xs zs : list float) :
  run_state s (xs ++ zs) = run_state (run_state s xs) zs.
Proof. revert s. induction xs as [|x xs IH]; intros s; simpl; [done|apply IH]. Qed.

Lemma run_outputs_app (s : Filter) (xs zs : list float) :
  run_outputs s (xs ++ zs) = run_outputs s xs ++ run_outputs (run_state s xs) zs.
Proof.
  revert s. induction xs as [|x xs IH]; intros s; simpl; [done|].
  by rewrite IH.
Qed.

Lemma run_state_coefficients (s : Filter) (xs : list float) :
  same_coefficients s (run_state s xs).
Proof.
  revert s. induction xs as [|x xs IH]; intros s; simpl; [done|].
  specialize (IH (Apply_state s x)). unfold same_coefficients in *.
  simpl in IH. done.
Qed.

Lemma recent_snoc_0 (l : list float) (x : float) : recent (l ++ [x]) 0 = x.
Proof. unfold recent. by rewrite reverse_snoc. Qed.

Lemma recent_snoc_S (l : list float) (x : float) (i : nat) :
  recent (l ++ [x]) (S i) = recent l i.
Proof. unfold recent. by rewrite reverse_snoc. Qed.

Lemma tracks_nil (s : Filter) : history_zero s → tracks [] [] s.
Proof. by intros (?&?&?&?). Qed.

Lemma tracks_step (xs ys : list float) (s : Filter) (x : float) :
  tracks xs ys s →
  tracks (xs ++ [x]) (ys ++ [Apply_output s x]) (Apply_state s x).
Proof.
  intros (Hi1 & Hi2 & Ho1 & Ho2). unfold tracks.
  rewrite !recent_snoc_0, !recent_snoc_S. simpl. by rewrite Hi1, Ho1.
Qed.

Lemma tracks_run (xs ys : list float) (s : Filter) (zs : list float) :
  tracks xs ys s →
  tracks (xs ++ zs) (ys ++ run_outputs s zs) (run_state s zs).
Proof.
  revert xs ys s. induction zs as [|z zs IH]; intros xs ys s Hs; simpl.
  - by rewrite !app_nil_r.
  - rewrite (cons_middle z xs zs), (cons_middle (Apply_output s z) ys), !app_assoc.
    apply IH, tracks_step, Hs.
Qed.

End stream_facts.

Section nan_facts.

Lemma Apply_output_nan (s : Filter) (x : float) :
  history_nan s = true → is_nan (Apply_output s x) = true.
Proof.
  unfold history_nan, Apply_output. rewrite !orb_true_iff.
  intros [[[Hn|Hn]|Hn]|Hn].
  - do 2 apply sub_nan_l. apply add_nan_l, add_nan_r. by apply mul_nan_r.
  - do 2 apply sub_nan_l. apply add_nan_r. by apply mul_nan_r.
  - apply sub_nan_l, sub_nan_r. by apply mul_nan_r.
  - apply sub_nan_r. by apply mul_nan_r.
Qed.

Lemma Apply_state_nan (s : Filter) (x : float) :
  history_nan s = true → history_nan (Apply_state s x) = true.
Proof.
  intros Hs. unfold history_nan. simpl.
  rewrite (Apply_output_nan s x Hs). by rewrite orb_true_r.
Qed.

Lemma run_outputs_nan (s : Filter) (xs : list float) :
  history_nan s = true → Forall (λ y, is_nan y = true) (run_outputs s xs).
Proof.
  revert s. induction xs as [|x xs IH]; intros s Hs; simpl; constructor.
  - by apply Apply_output_nan.
  - by apply IH, Apply_state_nan.
Qed.

Lemma run_state_nan (s : Filter) (xs : list float) :
  history_nan s = true → history_nan (run_state s xs) = true.
Proof.
  revert s. induction xs as [|x xs IH]; intros s Hs; simpl; [done|].
  by apply IH, Apply_state_nan.
Qed.

End nan_facts.

Section series_facts.

Lemma series_sin_zero (x : float) :
  is_zero x = true → is_zero (series_sin x) = true.
Proof. intros Hx. unfold series_sin. by rewrite Hx. Qed.

Lemma series_sinh_nan (x : float) :
  is_nan x = true → is_nan (series_sinh x) = true.
Proof. intros Hx. unfold series_sinh. by rewrite Hx, orb_true_r. Qed.

End series_facts.

Section degenerate_facts.
Context `{Math}.

Lemma w0_zero_frequency (pi sampleRate : float) :
  zero_or_nan (2 * pi * 0 / sampleRate) = true.
Proof. by apply div_zero_or_nan_l, mul_zero_or_nan_r. Qed.

Lemma bandwidth_alpha_nan (width w0 : float) :
  (∀ x, is_zero x = true → is_zero (Sin x) = true) →
  (∀ x, is_nan x = true → is_nan (Sinh x) = true) →
  zero_or_nan w0 = true →
  is_nan (Sin w0 * Sinh (Log 2 / 2 * width * w0 / Sin w0)) = true.
Proof.
  intros HSin HSinh Hw0. apply mul_nan_r, HSinh.
  destruct (is_nan w0) eqn:Hnan.
  - by apply div_nan_l, mul_nan_r.
  - apply div_zero_or_nan_zero; [by apply mul_zero_or_nan_r|].
    apply HSin. unfold zero_or_nan in Hw0. rewrite Hnan in Hw0.
    by rewrite orb_false_r in Hw0.
Qed.

End degenerate_facts.

(** ** Zeros, infinities and finite values *)

Section finite_facts.

Lemma mul_nan_l (x y : float) : is_nan x = true → is_nan (x * y) = true.
Proof.
  rewrite !is_nan_Prim2SF, mul_spec. intros ->. reflexivity.
Qed.

Lemma div_nan_r (x y : float) : is_nan y = true → is_nan (x / y) = true.
Proof.
  rewrite !is_nan_Prim2SF, div_spec. intros ->.
  by destruct (Prim2SF x) as [[]|[]| |].
Qed.

Lemma is_infinity_Prim2SF (x : float) :
  is_infinity x = true ↔ ∃ s, Prim2SF x = S754_infinity s.
Proof.
  unfold is_infinity. rewrite FloatAxioms.eqb_spec, abs_spec.
  change (Prim2SF infinity) with (S754_infinity false).
  destruct (Prim2SF x) as [s|s| |s m e]; simpl.
  - split; [done|]. by intros [? ?].
  - split; [|done]. intros _. by exists s.
  - split; [done|]. by intros [? ?].
  - split; [done|]. by intros [? ?].
Qed.

Lemma not_finite_Prim2SF (x : float) :
  is_finite x = false ↔ SFnonfinite (Prim2SF x).
Proof.
  unfold is_finite. rewrite negb_false_iff, orb_true_iff.
  rewrite is_nan_Prim2SF, is_infinity_Prim2SF.
  destruct (Prim2SF x) as [s|s| |s m e]; simpl.
  - split; [|done]. by intros [?|[? ?]].
  - split; [done|]. intros _. right. by exists s.
  - split; [done|]. intros _. by left.
  - split; [|done]. by intros [?|[? ?]].
Qed.

Lemma finite_Prim2SF (x : float) :
  is_finite x = true ↔ ¬ SFnonfinite (Prim2SF x).
Proof.
  rewrite <- not_finite_Prim2SF. by destruct (is_finite x).
Qed.

(** A quotient by a zero is an infinity or NaN. *)
Lemma div_zero_not_finite (x y : float) :
  is_zero y = true → is_finite (x / y) = false.
Proof.
  rewrite is_zero_Prim2SF, not_finite_Prim2SF, div_spec.
  intros [s ->]. by destruct (Prim2SF x).
Qed.

(** An infinity or NaN stays one under the arithmetic operations. *)
Lemma add_not_finite_l (x y : float) :
  is_finite x = false → is_finite (x + y) = false.
Proof.
  rewrite !not_finite_Prim2SF, add_spec.
  by destruct (Prim2SF x) as [|[]| |], (Prim2SF y) as [|[]| |].
Qed.

Lemma add_not_finite_r (x y : float) :
  is_finite y = false → is_finite (x + y) = false.
Proof.
  rewrite !not_finite_Prim2SF, add_spec.
  by destruct (Prim2SF x) as [|[]| |], (Prim2SF y) as [|[]| |].
Qed.

Lemma sub_not_finite_r (x y : float) :
  is_finite y = false → is_finite (x - y) = false.
Proof.
  rewrite !not_finite_Prim2SF, sub_spec.
  by destruct (Prim2SF x) as [|[]| |], (Prim2SF y) as [|[]| |].
Qed.

Lemma mul_not_finite_l (x y : float) :
  is_finite x = false → is_finite (x * y) = false.
Proof.
  rewrite !not_finite_Prim2SF, mul_spec.
  by destruct (Prim2SF x), (Prim2SF y).
Qed.

Lemma mul_not_finite_r (x y : float) :
  is_finite y = false → is_finite (x * y) = false.
Proof.
  rewrite !not_finite_Prim2SF, mul_spec.
  by destruct (Prim2SF x), (Prim2SF y).
Qed.

(** Zeros. *)
Lemma mul_zero_r_2 (y : float) : is_zero y = true → is_zero (2 * y) = true.
Proof.
  rewrite !is_zero_Prim2SF, mul_spec. intros [s ->].
  change (Prim2SF 2) with (S754_finite false 4503599627370496 (-51)).
  by eexists.
Qed.

Lemma mul_finite_zero (x y : float) :
  is_finite x = true → is_zero y = true → is_zero (x * y) = true.
Proof.
  rewrite finite_Prim2SF, !is_zero_Prim2SF, mul_spec.
  intros Hx [s ->]. destruct (Prim2SF x); simpl in *; by eauto.
Qed.

Lemma add_zero_zero (x y : float) :
  is_zero x = true → is_zero y = true → is_zero (x + y) = true.
Proof.
  rewrite !is_zero_Prim2SF, add_spec.
  intros [s ->] [s' ->]. destruct s, s'; by eexists.
Qed.

Lemma sub_zero_zero (x y : float) :
  is_zero x = true → is_zero y = true → is_zero (x - y) = true.
Proof.
  rewrite !is_zero_Prim2SF, sub_spec.
  intros [s ->] [s' ->]. destruct s, s'; by eexists.
Qed.

Lemma same_value_refl (x : float) : same_value x x.
Proof. by left. Qed.

Lemma same_value_add_zero (x y z : float) :
  is_zero z = true → same_value x y → same_value (x + z) y.
Proof.
  intros Hz [->|[Hx Hy]].
  - destruct (is_zero y) eqn:Hy.
    + right. split; [by apply add_zero_zero|done].
    + left. apply Prim2SF_inj. rewrite add_spec.
      apply is_zero_Prim2SF in Hz as [s Hs]. rewrite Hs.
      assert (¬ ∃ s', Prim2SF y = S754_zero s') as Hn
        by (rewrite <- is_zero_Prim2SF; congruence).
      destruct (Prim2SF y) as [s'| | |]; [|done..].
      destruct Hn. by exists s'.
  - right. split; [by apply add_zero_zero|done].
Qed.

Lemma same_value_sub_zero (x y z : float) :
  is_zero z = true → same_value x y → same_value (x - z) y.
Proof.
  intros Hz [->|[Hx Hy]].
  - destruct (is_zero y) eqn:Hy.
    + right. split; [by apply sub_zero_zero|done].
    + left. apply Prim2SF_inj. rewrite sub_spec.
      apply is_zero_Prim2SF in Hz as [s Hs]. rewrite Hs.
      assert (¬ ∃ s', Prim2SF y = S754_zero s') as Hn
        by (rewrite <- is_zero_Prim2SF; congruence).
      destruct (Prim2SF y) as [s'| | |]; [|done..].
      destruct Hn. by exists s'.
  - right. split; [by apply sub_zero_zero|done].
Qed.

End finite_facts.

(** ** More on runs of [Apply] *)

Section more_run_facts.

Lemma Apply_output_coefficient_nan (s : Filter) (x : float) :
  coefficient_nan s = true → is_nan (Apply_output s x) = true.
Proof.
  unfold coefficient_nan, Apply_output. rewrite !orb_true_iff.
  intros [[[[[Hn|Hn]|Hn]|Hn]|Hn]|Hn].
  - do 2 apply sub_nan_l. do 2 apply add_nan_l.
    by apply mul_nan_l, div_nan_r.
  - apply sub_nan_l, sub_nan_r. by apply mul_nan_l, div_nan_l.
  - apply sub_nan_r. by apply mul_nan_l, div_nan_l.
  - do 2 apply sub_nan_l. do 2 apply add_nan_l.
    by apply mul_nan_l, div_nan_l.
  - do 2 apply sub_nan_l. apply add_nan_l, add_nan_r.
    by apply mul_nan_l, div_nan_l.
  - do 2 apply sub_nan_l. apply add_nan_r. by apply mul_nan_l, div_nan_l.
Qed.

Lemma run_outputs_coefficient_nan (s : Filter) (xs : list float) :
  coefficient_nan s = true → Forall (λ y, is_nan y = true) (run_outputs s xs).
Proof.
  revert s. induction xs as [|x xs IH]; intros s Hs; simpl; constructor.
  - by apply Apply_output_coefficient_nan.
  - by apply IH.
Qed.

Lemma Apply_output_zero (s : Filter) (x : float) :
  is_finite (b0 s / a0 s) = true → history_gains_finite s = true →
  history_is_zero s = true → is_zero x = true →
  is_zero (Apply_output s x) = true.
Proof.
  unfold history_gains_finite, history_is_zero, Apply_output.
  rewrite !andb_true_iff.
  intros H0 [[[H1 H2] H3] H4] [[[Hi1 Hi2] Ho1] Ho2] Hx.
  do 2 (apply sub_zero_zero; [|by apply mul_finite_zero]).
  do 2 (apply add_zero_zero; [|by apply mul_finite_zero]).
  by apply mul_finite_zero.
Qed.

Lemma run_zero (s : Filter) (xs : list float) :
  is_finite (b0 s / a0 s) = true → history_gains_finite s = true →
  history_is_zero s = true → Forall (λ x, is_zero x = true) xs →
  Forall (λ y, is_zero y = true) (run_outputs s xs) ∧
  history_is_zero (run_state s xs) = true.
Proof.
  intros H0 Hg. revert s H0 Hg.
  induction xs as [|x xs IH]; intros s H0 Hg Hz Hxs; simpl; [done|].
  apply Forall_cons in Hxs as [Hx Hxs].
  pose proof (Apply_output_zero s x H0 Hg Hz Hx) as Hy.
  destruct (IH (Apply_state s x)) as [Hys Hfin]; try done.
  - unfold history_is_zero in *. simpl.
    rewrite !andb_true_iff in Hz. destruct Hz as [[[Hi1 _] Ho1] _].
    by rewrite Hx, Hi1, Hy, Ho1.
  - split; [by constructor|done].
Qed.

Lemma Apply_output_first (s : Filter) (x : float) :
  history_gains_finite s = true → history_is_zero s = true →
  same_value (Apply_output s x) (b0 s / a0 s * x).
Proof.
  unfold history_gains_finite, history_is_zero, Apply_output.
  rewrite !andb_true_iff.
  intros [[[H1 H2] H3] H4] [[[Hi1 Hi2] Ho1] Ho2].
  do 2 (apply same_value_sub_zero; [by apply mul_finite_zero|]).
  do 2 (apply same_value_add_zero; [by apply mul_finite_zero|]).
  apply same_value_refl.
Qed.

End more_run_facts.

(** ** The loop of the example *)

Section loop_facts.

Lemma every_other_cons (x : float) (l : list float) :
  every_other (x :: l) = x :: every_other (tail l).
Proof. by destruct l. Qed.

Lemma loop_outputs_length (sa sb : Filter) (xs : list float) :
  length (loop_outputs sa sb xs) = length xs.
Proof.
  revert sa sb. induction xs as [|x xs IH]; intros sa sb; simpl; [done|].
  by rewrite IH.
Qed.

Lemma loop_outputs_channels (sa sb : Filter) (xs : list float) :
  every_other (loop_outputs sa sb xs) = run_outputs sa (every_other xs) ∧
  every_other (tail (loop_outputs sa sb xs)) =
    run_outputs sb (every_other (tail xs)).
Proof.
  revert sa sb. induction xs as [|x xs IH]; intros sa sb; [done|].
  destruct (IH sb (Apply_state sa x)) as [IH1 IH2].
  change (loop_outputs sa sb (x :: xs))
    with (Apply_output sa x :: loop_outputs sb (Apply_state sa x) xs).
  rewrite !every_other_cons. simpl tail. split.
  - rewrite IH2. reflexivity.
  - exact IH1.
Qed.

Lemma main_loop_run (f0 f1 : loc) (xs : list float) :
  f0 ≠ f1 →
  ∀ (σ : Env) (s0 s1 : Filter),
    heap σ !! f0 = Some s0 → heap σ !! f1 = Some s1 →
    main_loop f0 f1 0 xs σ =
      Some (loop_outputs s0 s1 xs,
            mkEnv (p σ)
              (<[f0 := run_state s0 (every_other xs)]>
                 (<[f1 := run_state s1 (every_other (tail xs))]> (heap σ)))) ∧
    main_loop f0 f1 1 xs σ =
      Some (loop_outputs s1 s0 xs,
            mkEnv (p σ)
              (<[f1 := run_state s1 (every_other xs)]>
                 (<[f0 := run_state s0 (every_other (tail xs))]> (heap σ)))).
Proof.
  intros Hne. induction xs as [|x xs IH]; intros σ s0 s1 H0 H1.
  - simpl. rewrite !(insert_id (heap σ)) by done. by destruct σ.
  - rewrite every_other_cons. simpl tail. split.
    + change (main_loop f0 f1 0 (x :: xs))
        with (output ← Apply f0 x;
              outputs ← main_loop f0 f1 1 xs;
              mret (output :: outputs)).
      rewrite (bind_run _ _ _ _ _ (Apply_run σ f0 s0 x H0)).
      destruct (IH (mkEnv (p σ) (<[f0 := Apply_state s0 x]> (heap σ)))
                  (Apply_state s0 x) s1) as [_ IH1].
      { apply lookup_insert_eq. }
      { simpl. by rewrite lookup_insert_ne. }
      rewrite (bind_run _ _ _ _ _ IH1). simpl.
      rewrite insert_insert_eq.
      by rewrite (insert_insert_ne _ f1 f0) by done.
    + change (main_loop f0 f1 1 (x :: xs))
        with (output ← Apply f1 x;
              outputs ← main_loop f0 f1 0 xs;
              mret (output :: outputs)).
      rewrite (bind_run _ _ _ _ _ (Apply_run σ f1 s1 x H1)).
      destruct (IH (mkEnv (p σ) (<[f1 := Apply_state s1 x]> (heap σ)))
                  s0 (Apply_state s1 x)) as [IH0 _].
      { simpl. by rewrite lookup_insert_ne. }
      { apply lookup_insert_eq. }
      rewrite (bind_run _ _ _ _ _ IH0). simpl.
      rewrite insert_insert_eq.
      by rewrite (insert_insert_ne _ f0 f1) by done.
Qed.

End loop_facts.

(** ** Structs built from degenerate arguments *)

Ltac unfold_built :=
  unfold built; simpl;
  unfold NewLowPass, NewHighPass, NewAllPass, NewBandPass, NewBandReject,
    NewLowShelf, NewHighShelf, NewPeaking, mbind, M_bind, read_p, alloc;
  simpl; rewrite lookup_insert_eq; simpl.

Section built_facts.
Context `{Math}.

Lemma run_outputs_gain_nan (s : Filter) (xs : list float) :
  is_nan (b0 s / a0 s) = true → Forall (λ y, is_nan y = true) (run_outputs s xs).
Proof.
  revert s. induction xs as [|x xs IH]; intros s Hs; simpl; constructor.
  - unfold Apply_output. do 2 apply sub_nan_l. do 2 apply add_nan_l.
    by apply mul_nan_l.
  - by apply IH.
Qed.

Lemma a0_nan_coefficient_nan (s : Filter) :
  is_nan (a0 s) = true → coefficient_nan s = true.
Proof. unfold coefficient_nan. by intros ->. Qed.

Lemma bandwidth_built_nan (sampleRate width gain pi : float) (c : Call) :
  (∀ x, is_zero x = true → is_zero (Sin x) = true) →
  (∀ x, is_nan x = true → is_nan (Sinh x) = true) →
  c ∈ [CallBandPass sampleRate 0 width; CallBandReject sampleRate 0 width;
       CallPeaking sampleRate 0 width gain] →
  is_nan (a0 (built c pi)) = true ∧ is_nan (a2 (built c pi)) = true.
Proof.
  intros HSin HSinh.
  pose proof (bandwidth_alpha_nan width _ HSin HSinh
                (w0_zero_frequency pi sampleRate)) as Halpha.
  rewrite !elem_of_cons, elem_of_nil. intros [->|[->|[->|[]]]]; unfold_built.
  - split; [by apply add_nan_r|by apply sub_nan_r].
  - split; [by apply add_nan_r|by apply sub_nan_r].
  - split; [by apply add_nan_r, div_nan_l|by apply sub_nan_r, div_nan_l].
Qed.

Lemma zero_q_built_not_finite (sampleRate frequency q gain pi : float)
    (c : Call) :
  is_zero q = true →
  c ∈ [CallLowPass sampleRate frequency q; CallHighPass sampleRate frequency q;
       CallAllPass sampleRate frequency q;
       CallLowShelf sampleRate frequency q gain;
       CallHighShelf sampleRate frequency q gain] →
  is_finite (a0 (built c pi)) = false ∧ is_finite (a2 (built c pi)) = false.
Proof.
  intros Hq.
  rewrite !elem_of_cons, elem_of_nil.
  intros [->|[->|[->|[->|[->|[]]]]]]; unfold_built.
  1-3: split; [apply add_not_finite_r|apply sub_not_finite_r];
       by apply div_zero_not_finite, mul_zero_r_2.
  all: split; [apply add_not_finite_r|apply sub_not_finite_r];
       by apply mul_not_finite_l, div_zero_not_finite.
Qed.

End built_facts.

(** ** The filter state machine *)

(** C1: on a pointer to a struct [s], [Apply] returns
    [(b0/a0)*input + (b1/a0)*in1 + (b2/a0)*in2 - (a1/a0)*out1 - (a2/a0)*out2]
    computed from the fields of [s] as they are before the call, and leaves
    the struct with [in2 = in1 s], [in1 = input], [out2 = out1 s],
    [out1 = output]; the name and the six coefficients, every other struct
    on the heap and [p] are as before. *)
Theorem Apply_spec (σ : Env) (f : loc) (s : Filter) (input : float) :
  heap σ !! f = Some s →
  let output :=
    (b0 s / a0 s) * input + (b1 s / a0 s) * in1 s + (b2 s / a0 s) * in2 s -
    (a1 s / a0 s) * out1 s - (a2 s / a0 s) * out2 s in
  Apply f input σ =
    Some (output,
          mkEnv (p σ)
            (<[f := {| name := name s;
                       in1 := input; in2 := in1 s;
                       out1 := output; out2 := out1 s;
                       a0 := a0 s; a1 := a1 s; a2 := a2 s;
                       b0 := b0 s; b1 := b1 s; b2 := b2 s |}]> (heap σ))).
Proof. intros Hf. by rewrite (Apply_run σ f s input Hf). Qed.

Lemma Apply_spec_witness :
  Apply 1%positive 1
    (mkEnv Pi {[ 1%positive := mkFilter LowPass 0.5 0.25 0.125 (-1) 2 1 0.5 1 2 1 ]}) =
  Some (1.3125,
        mkEnv Pi (<[ 1%positive := mkFilter LowPass 1 0.5 1.3125 0.125 2 1 0.5 1 2 1 ]>
                    {[ 1%positive := mkFilter LowPass 0.5 0.25 0.125 (-1) 2 1 0.5 1 2 1 ]})).
Proof.
  exact (Apply_spec
           (mkEnv Pi {[ 1%positive := mkFilter LowPass 0.5 0.25 0.125 (-1) 2 1 0.5 1 2 1 ]})
           1%positive (mkFilter LowPass 0.5 0.25 0.125 (-1) 2 1 0.5 1 2 1) 1
           eq_refl).
Defined.

(** ** The coefficient factory *)

Section factory.
Context `{Math}.

(** C2: [NewLowPass] returns a pointer to a new struct whose coefficients
    are, with [w0 = 2*p*frequency/sampleRate] and [alpha = sin(w0)/(2*q)],
    [a0 = 1+alpha], [a1 = -2*cos(w0)], [a2 = 1-alpha], [b0 = (1-cos(w0))/2],
    [b1 = 1-cos(w0)], [b2 = (1-cos(w0))/2], none of them divided by [a0];
    the name is [LowPass] and the history is zero. *)
Theorem NewLowPass_spec (sampleRate frequency q : float) (σ : Env) :
  let w0 := 2 * p σ * frequency / sampleRate in
  let alpha := Sin w0 / (2 * q) in
  ∃ f : loc,
    heap σ !! f = None ∧
    NewLowPass sampleRate frequency q σ =
      Some (f, mkEnv (p σ)
                 (<[f := {| name := LowPass;
                            in1 := 0; in2 := 0; out1 := 0; out2 := 0;
                            a0 := 1 + alpha;
                            a1 := -2 * Cos w0;
                            a2 := 1 - alpha;
                            b0 := (1 - Cos w0) / 2;
                            b1 := 1 - Cos w0;
                            b2 := (1 - Cos w0) / 2 |}]> (heap σ))).
Proof.
  intros w0 alpha. exists (fresh (dom (heap σ))).
  split; [apply alloc_fresh|reflexivity].
Qed.

(** C3: [NewPeaking] returns a pointer to a new struct whose coefficients
    are, with [w0 = 2*p*frequency/sampleRate],
    [alpha = sin(w0)*sinh((ln 2/2)*width*w0/sin(w0))] and [A = 10^(gain/40)],
    [a0 = 1+alpha/A], [a1 = -2*cos(w0)], [a2 = 1-alpha/A], [b0 = 1+alpha*A],
    [b1 = -2*cos(w0)], [b2 = 1-alpha*A]. *)
Theorem NewPeaking_spec (sampleRate frequency width gain : float) (σ : Env) :
  let w0 := 2 * p σ * frequency / sampleRate in
  let alpha := Sin w0 * Sinh (Log 2 / 2 * width * w0 / Sin w0) in
  let A := Pow 10 (gain / 40) in
  ∃ f : loc,
    heap σ !! f = None ∧
    NewPeaking sampleRate frequency width gain σ =
      Some (f, mkEnv (p σ)
                 (<[f := {| name := Peaking;
                            in1 := 0; in2 := 0; out1 := 0; out2 := 0;
                            a0 := 1 + alpha / A;
                            a1 := -2 * Cos w0;
                            a2 := 1 - alpha / A;
                            b0 := 1 + alpha * A;
                            b1 := -2 * Cos w0;
                            b2 := 1 - alpha * A |}]> (heap σ))).
Proof.
  intros w0 alpha A. exists (fresh (dom (heap σ))).
  split; [apply alloc_fresh|reflexivity].
Qed.

(** C5: the struct [NewAllPass] builds has [b0 = a2], [b1 = a1] and
    [b2 = a0], as equalities of binary64 values: each pair is the same
    expression over [alpha] and [cos(w0)]. *)
Theorem NewAllPass_mirror (sampleRate frequency q : float) (σ : Env) :
  ∃ (f : loc) (σ' : Env) (s : Filter),
    NewAllPass sampleRate frequency q σ = Some (f, σ') ∧
    heap σ' !! f = Some s ∧
    name s = AllPass ∧
    b0 s = a2 s ∧ b1 s = a1 s ∧ b2 s = a0 s.
Proof.
  unfold NewAllPass, mbind, M_bind, read_p, alloc; simpl.
  eexists _, _, _. split; [reflexivity|]. simpl.
  split; [apply lookup_insert_eq|]. done.
Qed.

End factory.

(** ** Histories *)

(** C4: a struct fresh from a constructor has a zero history, which tracks
    the empty stream.  After two or more calls of [Apply], with inputs ending
    in [xa; xb] and outputs ending in [ya; yb], the history is [in1 = xb],
    [in2 = xa], [out1 = yb], [out2 = ya]; after exactly one call it is
    [in1 = x1], [out1 = y1], [in2 = out2 = 0]; after any run of calls the
    history tracks the run's inputs and outputs.  And on any struct, one more
    call keeps the history tracking the streams extended by the call's input
    and output. *)
Theorem history_invariant `{Math} :
  (∀ (c : Call) (σ0 : Env),
     ∃ (f : loc) (σ1 : Env) (s0 : Filter),
       call c σ0 = Some (f, σ1) ∧ heap σ1 !! f = Some s0 ∧ tracks [] [] s0 ∧
       (∀ (xs : list float) (xa xb : float),
          ∃ (ys : list float) (ya yb : float) (σ2 : Env) (s : Filter),
            Apply_all f (xs ++ [xa; xb]) σ1 = Some (ys ++ [ya; yb], σ2) ∧
            length ys = length xs ∧
            heap σ2 !! f = Some s ∧
            in1 s = xb ∧ in2 s = xa ∧ out1 s = yb ∧ out2 s = ya) ∧
       (∀ x1 : float,
          ∃ (y1 : float) (σ2 : Env) (s : Filter),
            Apply_all f [x1] σ1 = Some ([y1], σ2) ∧
            heap σ2 !! f = Some s ∧
            in1 s = x1 ∧ out1 s = y1 ∧ in2 s = 0 ∧ out2 s = 0) ∧
       (∀ xs : list float,
          ∃ (ys : list float) (σ2 : Env) (s : Filter),
            Apply_all f xs σ1 = Some (ys, σ2) ∧
            length ys = length xs ∧
            heap σ2 !! f = Some s ∧ tracks xs ys s)) ∧
  (∀ (σ : Env) (f : loc) (s : Filter) (xs ys : list float) (x : float),
     heap σ !! f = Some s → tracks xs ys s →
     ∃ (y : float) (σ' : Env) (s' : Filter),
       Apply f x σ = Some (y, σ') ∧ heap σ' !! f = Some s' ∧
       tracks (xs ++ [x]) (ys ++ [y]) s').
Proof.
  split.
  - intros c σ0. destruct (call_run c σ0) as (f & Hfresh & Hcall).
    exists f, (mkEnv (p σ0) (<[f := built c (p σ0)]> (heap σ0))), (built c (p σ0)).
    pose proof (built_history c (p σ0)) as Hz.
    split; [done|]. split; [apply lookup_insert_eq|].
    split; [by apply tracks_nil|]. split; [|split].
    + intros xs xa xb. set (s0 := built c (p σ0)) in *.
      exists (run_outputs s0 xs),
        (Apply_output (run_state s0 xs) xa),
        (Apply_output (Apply_state (run_state s0 xs) xa) xb).
      eexists _, _. split.
      { erewrite Apply_all_run by apply lookup_insert_eq.
        by rewrite run_outputs_app. }
      split; [apply run_outputs_length|]. simpl.
      split; [apply lookup_insert_eq|].
      by rewrite run_state_app.
    + intros x1. eexists _, _, _. split.
      { erewrite Apply_all_run by apply lookup_insert_eq. reflexivity. }
      simpl. split; [apply lookup_insert_eq|].
      destruct Hz as (Hi1 & _ & Ho1 & _). simpl. by rewrite Hi1, Ho1.
    + intros xs. eexists _, _, _. split.
      { erewrite Apply_all_run by apply lookup_insert_eq. reflexivity. }
      split; [apply run_outputs_length|]. simpl.
      split; [apply lookup_insert_eq|].
      apply (tracks_run [] [] (built c (p σ0)) xs), tracks_nil, Hz.
  - intros σ f s xs ys x Hf Hs. eexists _, _, _.
    split; [by apply Apply_run|]. simpl.
    split; [apply lookup_insert_eq|]. by apply tracks_step.
Qed.

Lemma history_invariant_witness :
  ∃ (y : float) (σ' : Env) (s' : Filter),
    Apply 1%positive 4
      (mkEnv Pi {[ 1%positive := mkFilter LowPass 3 2 0.5 0.25 2 1 0.5 1 2 1 ]}) =
      Some (y, σ') ∧
    heap σ' !! 1%positive = Some s' ∧
    tracks ([1; 2; 3] ++ [4]) ([0.125; 0.25; 0.5] ++ [y]) s'.
Proof.
  apply (proj2 (@history_invariant series_Math)
           (mkEnv Pi {[ 1%positive := mkFilter LowPass 3 2 0.5 0.25 2 1 0.5 1 2 1 ]})
           1%positive (mkFilter LowPass 3 2 0.5 0.25 2 1 0.5 1 2 1)
           [1; 2; 3] [0.125; 0.25; 0.5] 4).
  - reflexivity.
  - repeat split.
Defined.

(** C7: when one of [in1], [in2], [out1], [out2] is NaN before a call of
    [Apply], the call returns NaN and leaves a NaN in the history (in
    [out1]), with the coefficients as they were; so every call of any later
    run of calls on the struct returns NaN. *)
Theorem NaN_poisoning (σ : Env) (f : loc) (s : Filter) :
  heap σ !! f = Some s →
  history_nan s = true →
  (∀ x : float,
     ∃ (y : float) (σ' : Env) (s' : Filter),
       Apply f x σ = Some (y, σ') ∧ is_nan y = true ∧
       heap σ' !! f = Some s' ∧ is_nan (out1 s') = true ∧
       history_nan s' = true ∧ same_coefficients s s') ∧
  (∀ xs : list float,
     ∃ (ys : list float) (σ' : Env) (s' : Filter),
       Apply_all f xs σ = Some (ys, σ') ∧ length ys = length xs ∧
       Forall (λ y, is_nan y = true) ys ∧
       heap σ' !! f = Some s' ∧ history_nan s' = true ∧
       same_coefficients s s').
Proof.
  intros Hf Hs. split.
  - intros x. eexists _, _, _. split; [by apply Apply_run|].
    split; [by apply Apply_output_nan|]. simpl.
    split; [apply lookup_insert_eq|].
    split; [by apply Apply_output_nan|].
    split; [by apply Apply_state_nan|done].
  - intros xs. eexists _, _, _. split; [by apply Apply_all_run|].
    split; [apply run_outputs_length|].
    split; [by apply run_outputs_nan|]. simpl.
    split; [apply lookup_insert_eq|].
    split; [by apply run_state_nan|apply run_state_coefficients].
Qed.

Lemma NaN_poisoning_witness :
  ∃ (ys : list float) (σ' : Env) (s' : Filter),
    Apply_all 1%positive [1; 0; 0.5]
      (mkEnv Pi {[ 1%positive := mkFilter LowPass 0 nan 0 0 2 1 0.5 1 2 1 ]}) =
      Some (ys, σ') ∧
    length ys = 3%nat ∧
    Forall (λ y, is_nan y = true) ys ∧
    heap σ' !! 1%positive = Some s' ∧ history_nan s' = true ∧
    same_coefficients (mkFilter LowPass 0 nan 0 0 2 1 0.5 1 2 1) s'.
Proof.
  destruct (NaN_poisoning
              (mkEnv Pi {[ 1%positive := mkFilter LowPass 0 nan 0 0 2 1 0.5 1 2 1 ]})
              1%positive (mkFilter LowPass 0 nan 0 0 2 1 0.5 1 2 1))
    as [_ Hrun].
  - reflexivity.
  - reflexivity.
  - apply Hrun.
Defined.

(** ** Names *)

(** C8: the zero value of [Filter] reports [Name() = Undefined] (the
    constant numbered 0) and [IsZero() = true]; the struct each of the eight
    constructors returns reports the constant named after the constructor,
    which is never [Undefined], and [IsZero() = false]; [Name] and [IsZero]
    return the state they were called in. *)
Theorem kind_tagging `{Math} :
  (FilterName_int (name zero_Filter) = 0%Z ∧
   ∀ σ : Env,
     ∃ (f : loc) (σ' : Env),
       alloc zero_Filter σ = Some (f, σ') ∧
       Name f σ' = Some (Undefined, σ') ∧
       IsZero f σ' = Some (true, σ')) ∧
  (∀ (c : Call) (σ : Env),
     ∃ (f : loc) (σ' : Env),
       call c σ = Some (f, σ') ∧
       Name f σ' = Some (kind c, σ') ∧
       kind c ≠ Undefined ∧
       IsZero f σ' = Some (false, σ')) ∧
  (∀ (σ : Env) (f : loc),
     Name f σ = (λ s, (name s, σ)) <$> heap σ !! f ∧
     IsZero f σ =
       (λ s, (bool_decide (name s = Undefined), σ)) <$> heap σ !! f).
Proof.
  split; [|split].
  - split; [done|]. intros σ. eexists _, _. split; [reflexivity|].
    unfold Name, IsZero, rd. simpl. by rewrite lookup_insert_eq.
  - intros c σ. destruct (call_run c σ) as (f & _ & ->).
    eexists _, _. split; [reflexivity|].
    unfold Name, IsZero, rd. simpl. rewrite lookup_insert_eq, built_name.
    split; [done|]. split; [apply kind_not_Undefined|].
    by rewrite bool_decide_eq_false_2 by apply kind_not_Undefined.
  - intros σ f. unfold Name, IsZero, rd. by destruct (heap σ !! f).
Qed.

(** ** Construction *)

(** C10: two calls of a constructor with the same arguments, in states with
    the same [p], store the same struct (same name, same six coefficients
    as binary64 values) at two new locations, its history all zero; made
    one after the other the two locations differ, and a call of [Apply]
    on the first leaves the second with its zero history. *)
Theorem construction_idempotent `{Math} (c : Call) :
  (∀ σ σ' : Env,
     p σ = p σ' →
     ∃ (f f' : loc) (s : Filter),
       heap σ !! f = None ∧
       call c σ = Some (f, mkEnv (p σ) (<[f := s]> (heap σ))) ∧
       heap σ' !! f' = None ∧
       call c σ' = Some (f', mkEnv (p σ') (<[f' := s]> (heap σ'))) ∧
       name s = kind c ∧ history_zero s) ∧
  (∀ σ : Env,
     ∃ (f0 f1 : loc) (σ1 σ2 : Env) (s : Filter),
       call c σ = Some (f0, σ1) ∧ call c σ1 = Some (f1, σ2) ∧
       f0 ≠ f1 ∧
       heap σ2 !! f0 = Some s ∧ heap σ2 !! f1 = Some s ∧
       history_zero s ∧
       ∀ x : float,
         ∃ (y : float) (σ3 : Env),
           Apply f0 x σ2 = Some (y, σ3) ∧
           heap σ3 !! f0 = Some (Apply_state s x) ∧
           heap σ3 !! f1 = Some s).
Proof.
  split.
  - intros σ σ' Hp.
    destruct (call_run c σ) as (f & Hf & Hc).
    destruct (call_run c σ') as (f' & Hf' & Hc').
    exists f, f', (built c (p σ)). rewrite Hp in *.
    repeat split; try done; try apply built_history. apply built_name.
  - intros σ.
    destruct (call_run c σ) as (f0 & Hf0 & Hc0).
    destruct (call_run c (mkEnv (p σ) (<[f0 := built c (p σ)]> (heap σ))))
      as (f1 & Hf1 & Hc1). simpl in Hf1, Hc1.
    assert (f0 ≠ f1) as Hne.
    { intros ->. by rewrite lookup_insert_eq in Hf1. }
    eexists f0, f1, _, _, (built c (p σ)).
    split; [exact Hc0|]. split; [exact Hc1|]. simpl.
    split; [done|].
    assert (<[f1 := built c (p σ)]> (<[f0 := built c (p σ)]> (heap σ)) !! f0
            = Some (built c (p σ))) as H0.
    { rewrite lookup_insert_ne by done. apply lookup_insert_eq. }
    split; [exact H0|]. split; [apply lookup_insert_eq|].
    split; [apply built_history|].
    intros x. eexists _, _. split; [by apply Apply_run|]. simpl.
    split; [apply lookup_insert_eq|].
    rewrite lookup_insert_ne by done. apply lookup_insert_eq.
Qed.

Lemma construction_idempotent_witness :
  ∃ (f f' : loc) (s : Filter),
    heap init_Env !! f = None ∧
    @call series_Math (CallBandPass 44100 440 0.5) init_Env =
      Some (f, mkEnv (p init_Env) (<[f := s]> (heap init_Env))) ∧
    heap (mkEnv Pi {[ 1%positive := zero_Filter ]}) !! f' = None ∧
    @call series_Math (CallBandPass 44100 440 0.5)
      (mkEnv Pi {[ 1%positive := zero_Filter ]}) =
      Some (f', mkEnv (p (mkEnv Pi {[ 1%positive := zero_Filter ]}))
                  (<[f' := s]> (heap (mkEnv Pi {[ 1%positive := zero_Filter ]})))) ∧
    name s = kind (CallBandPass 44100 440 0.5) ∧ history_zero s.
Proof.
  apply (proj1 (@construction_idempotent series_Math (CallBandPass 44100 440 0.5))
           init_Env (mkEnv Pi {[ 1%positive := zero_Filter ]})).
  reflexivity.
Defined.

(** ** The package variable [p] *)

(** C6: [SetPi v] stores [v] in [p] and leaves the heap as it is, so every
    struct built before keeps its name, coefficients and history; each of
    the eight constructors, called afterwards, builds its row of the
    coefficient table with [w0 = 2*v*frequency/sampleRate] (spelled out for
    [NewLowPass]), as it builds it from [p] in any state; [Apply] on a
    struct returns the same sample and leaves the same heap whether [SetPi]
    ran before it or after it; [UnsetPi] stores [Pi], the value [p] starts
    with, and a constructor called afterwards builds its row from [Pi]. *)
Theorem SetPi_frame `{Math} (v : float) (σ : Env) :
  SetPi v σ = Some (tt, mkEnv v (heap σ)) ∧
  (∀ c : Call,
     (∃ f : loc,
        heap σ !! f = None ∧
        (SetPi v;; call c) σ =
          Some (f, mkEnv v (<[f := cookbook c v]> (heap σ)))) ∧
     (SetPi v;; call c) σ = alloc (built c v) (mkEnv v (heap σ)) ∧
     call c σ = alloc (cookbook c (p σ)) σ ∧
     call c σ = alloc (built c (p σ)) σ) ∧
  (∀ sampleRate frequency q : float,
     let w0 := 2 * v * frequency / sampleRate in
     let alpha := Sin w0 / (2 * q) in
     ∃ f : loc,
       heap σ !! f = None ∧
       (SetPi v;; NewLowPass sampleRate frequency q) σ =
         Some (f, mkEnv v
                    (<[f := mkFilter LowPass 0 0 0 0
                              (1 + alpha) (-2 * Cos w0) (1 - alpha)
                              ((1 - Cos w0) / 2) (1 - Cos w0)
                              ((1 - Cos w0) / 2)]> (heap σ)))) ∧
  (∀ (f : loc) (x : float),
     (SetPi v;; Apply f x) σ = (y ← Apply f x; SetPi v;; mret y) σ) ∧
  UnsetPi (mkEnv v (heap σ)) = Some (tt, mkEnv Pi (heap σ)) ∧
  (∀ c : Call,
     (∃ f : loc,
        heap σ !! f = None ∧
        (SetPi v;; UnsetPi;; call c) σ =
          Some (f, mkEnv Pi (<[f := cookbook c Pi]> (heap σ)))) ∧
     (SetPi v;; UnsetPi;; call c) σ = alloc (built c Pi) (mkEnv Pi (heap σ))) ∧
  p init_Env = Pi.
Proof.
  split; [done|].
  split; [|split; [|split; [|split; [done|split; [|done]]]]].
  - intros c. split; [|split; [|split]].
    + exists (fresh (dom (heap σ))). split; [apply alloc_fresh|].
      erewrite bind_run by reflexivity. by rewrite call_cookbook.
    + erewrite bind_run by reflexivity. by rewrite call_alloc.
    + apply call_cookbook.
    + apply call_alloc.
  - intros sampleRate frequency q w0 alpha.
    exists (fresh (dom (heap σ))). split; [apply alloc_fresh|reflexivity].
  - intros f x. erewrite bind_run by reflexivity.
    destruct (heap σ !! f) as [s|] eqn:Hf.
    + rewrite (Apply_run (mkEnv v (heap σ)) f s x Hf).
      by rewrite (bind_run _ _ _ _ _ (Apply_run σ f s x Hf)).
    + rewrite (Apply_nil (mkEnv v (heap σ)) f x Hf).
      by rewrite (bind_fail _ _ _ (Apply_nil σ f x Hf)).
  - intros c. split.
    + exists (fresh (dom (heap σ))). split; [apply alloc_fresh|].
      erewrite bind_run by reflexivity.
      erewrite bind_run by reflexivity. by rewrite call_cookbook.
    + erewrite bind_run by reflexivity.
      erewrite bind_run by reflexivity. by rewrite call_alloc.
Qed.

(** ** Degenerate arguments *)

(** C9: [NewBandPass] with [frequency = 0] builds a struct whose [a0], [a2],
    [b0] and [b2] are NaN, hence not finite, whatever [sampleRate] and
    [width] are (positive or not) and whatever [p] holds.  [w0] is a zero (or
    NaN when [p] or [sampleRate] is not finite), so with [Sin(±0) = ±0] the
    quotient [.../Sin(w0)] is NaN, and with [Sinh(NaN) = NaN] so is
    [alpha]. *)
Theorem NewBandPass_zero_frequency `{Math}
    (sampleRate width : float) (σ : Env) :
  (∀ x, is_zero x = true → is_zero (Sin x) = true) →
  (∀ x, is_nan x = true → is_nan (Sinh x) = true) →
  ∃ (f : loc) (σ' : Env) (s : Filter),
    NewBandPass sampleRate 0 width σ = Some (f, σ') ∧
    heap σ' !! f = Some s ∧
    name s = BandPass ∧
    is_nan (a0 s) = true ∧ is_nan (a2 s) = true ∧
    is_nan (b0 s) = true ∧ is_nan (b2 s) = true ∧
    is_finite (a0 s) = false ∧ is_finite (a2 s) = false ∧
    is_finite (b0 s) = false ∧ is_finite (b2 s) = false.
Proof.
  intros HSin HSinh.
  pose proof (bandwidth_alpha_nan width _ HSin HSinh
                (w0_zero_frequency (p σ) sampleRate)) as Halpha.
  unfold NewBandPass, mbind, M_bind, read_p, alloc; simpl.
  eexists _, _, _. split; [reflexivity|]. simpl.
  split; [apply lookup_insert_eq|]. simpl. split; [done|].
  assert (∀ x, is_nan x = true → is_nan x = true ∧ is_finite x = false) as Hn
    by (intros x Hx; split; [done|by apply is_nan_not_finite]).
  destruct (Hn _ (add_nan_r 1 _ Halpha)) as [-> ->].
  destruct (Hn _ (sub_nan_r 1 _ Halpha)) as [-> ->].
  destruct (Hn _ Halpha) as [-> ->].
  destruct (Hn _ (mul_nan_r (-1) _ Halpha)) as [-> ->].
  done.
Qed.

Lemma NewBandPass_zero_frequency_witness :
  ∃ (f : loc) (σ' : Env) (s : Filter),
    @NewBandPass series_Math 44100 0 0.5 init_Env = Some (f, σ') ∧
    heap σ' !! f = Some s ∧
    name s = BandPass ∧
    is_nan (a0 s) = true ∧ is_nan (a2 s) = true ∧
    is_nan (b0 s) = true ∧ is_nan (b2 s) = true ∧
    is_finite (a0 s) = false ∧ is_finite (a2 s) = false ∧
    is_finite (b0 s) = false ∧ is_finite (b2 s) = false.
Proof.
  apply (@NewBandPass_zero_frequency series_Math 44100 0.5 init_Env).
  - exact series_sin_zero.
  - exact series_sinh_nan.
Defined.

(** * Further properties *)

(** ** Coefficients and arguments outside the intended range *)

(** X1: when one of the six coefficients of a struct is NaN, every call
    of a run of [Apply] on it returns NaN, whatever the inputs and the
    history are. *)
Theorem coefficient_NaN_poisons (σ : Env) (f : loc) (s : Filter)
    (xs : list float) :
  heap σ !! f = Some s →
  coefficient_nan s = true →
  ∃ (ys : list float) (σ' : Env),
    Apply_all f xs σ = Some (ys, σ') ∧
    length ys = length xs ∧
    Forall (λ y, is_nan y = true) ys.
Proof.
  intros Hf Hs. eexists _, _. split; [by apply Apply_all_run|].
  split; [apply run_outputs_length|by apply run_outputs_coefficient_nan].
Qed.

Lemma coefficient_NaN_poisons_witness :
  ∃ (ys : list float) (σ' : Env),
    Apply_all 1%positive [1; 0.5]
      (mkEnv Pi {[ 1%positive := mkFilter LowPass 0 0 0 0 2 nan 0.5 1 2 1 ]}) =
      Some (ys, σ') ∧
    length ys = length [1; 0.5] ∧
    Forall (λ y, is_nan y = true) ys.
Proof.
  apply (coefficient_NaN_poisons
           (mkEnv Pi {[ 1%positive := mkFilter LowPass 0 0 0 0 2 nan 0.5 1 2 1 ]})
           1%positive (mkFilter LowPass 0 0 0 0 2 nan 0.5 1 2 1) [1; 0.5]).
  - reflexivity.
  - reflexivity.
Defined.

(** X2: a [Filter] left at its zero value (the one [IsZero] reports) is no
    pass-through: [b0/a0] is [0/0], so every call of [Apply] on it returns
    NaN, whatever the inputs. *)
Theorem zero_value_Apply (σ : Env) (xs : list float) :
  ∃ (f : loc) (σ1 : Env),
    alloc zero_Filter σ = Some (f, σ1) ∧
    IsZero f σ1 = Some (true, σ1) ∧
    ∃ (ys : list float) (σ2 : Env),
      Apply_all f xs σ1 = Some (ys, σ2) ∧
      length ys = length xs ∧
      Forall (λ y, is_nan y = true) ys.
Proof.
  eexists _, _. split; [reflexivity|].
  split; [unfold IsZero, rd; simpl; by rewrite lookup_insert_eq|].
  eexists _, _. split.
  { apply Apply_all_run. simpl. apply lookup_insert_eq. }
  split; [apply run_outputs_length|]. by apply run_outputs_gain_nan.
Qed.

Section degenerate_arguments.
Context `{Math}.

(** X3: with [frequency = 0], [NewBandPass], [NewBandReject] and
    [NewPeaking] build a struct whose [a0] and [a2] are NaN, and every call
    of [Apply] on it returns NaN; this for any [sampleRate], [width], [gain]
    and [p], given [Sin(±0) = ±0] and [Sinh(NaN) = NaN]. *)
Theorem zero_frequency_bandwidth (sampleRate width gain : float) (c : Call)
    (σ : Env) (xs : list float) :
  (∀ x, is_zero x = true → is_zero (Sin x) = true) →
  (∀ x, is_nan x = true → is_nan (Sinh x) = true) →
  c ∈ [CallBandPass sampleRate 0 width; CallBandReject sampleRate 0 width;
       CallPeaking sampleRate 0 width gain] →
  ∃ (f : loc) (σ1 : Env) (s : Filter),
    call c σ = Some (f, σ1) ∧ heap σ1 !! f = Some s ∧
    is_nan (a0 s) = true ∧ is_nan (a2 s) = true ∧
    ∃ (ys : list float) (σ2 : Env),
      Apply_all f xs σ1 = Some (ys, σ2) ∧
      length ys = length xs ∧
      Forall (λ y, is_nan y = true) ys.
Proof.
  intros HSin HSinh Hc.
  destruct (bandwidth_built_nan sampleRate width gain (p σ) c HSin HSinh Hc)
    as [Ha0 Ha2].
  destruct (call_run c σ) as (f & _ & Hcall).
  eexists f, _, (built c (p σ)). split; [exact Hcall|]. simpl.
  split; [apply lookup_insert_eq|]. split; [done|]. split; [done|].
  eexists _, _. split.
  { apply Apply_all_run. simpl. apply lookup_insert_eq. }
  split; [apply run_outputs_length|].
  by apply run_outputs_coefficient_nan, a0_nan_coefficient_nan.
Qed.

(** X4: with [q = 0] (of either sign), which the comments of the
    constructors exclude, [NewLowPass], [NewHighPass], [NewAllPass],
    [NewLowShelf] and [NewHighShelf] build a struct whose [a0] and [a2] are
    infinite or NaN, whatever the other arguments, [p] and the functions of
    [math] are. *)
Theorem zero_q_not_finite (sampleRate frequency q gain : float) (c : Call)
    (σ : Env) :
  is_zero q = true →
  c ∈ [CallLowPass sampleRate frequency q; CallHighPass sampleRate frequency q;
       CallAllPass sampleRate frequency q;
       CallLowShelf sampleRate frequency q gain;
       CallHighShelf sampleRate frequency q gain] →
  ∃ (f : loc) (σ1 : Env) (s : Filter),
    call c σ = Some (f, σ1) ∧ heap σ1 !! f = Some s ∧
    is_finite (a0 s) = false ∧ is_finite (a2 s) = false.
Proof.
  intros Hq Hc.
  destruct (zero_q_built_not_finite sampleRate frequency q gain (p σ) c Hq Hc)
    as [Ha0 Ha2].
  destruct (call_run c σ) as (f & _ & Hcall).
  eexists f, _, (built c (p σ)). split; [exact Hcall|]. simpl.
  split; [apply lookup_insert_eq|]. done.
Qed.

End degenerate_arguments.

Lemma zero_frequency_bandwidth_witness :
  ∃ (f : loc) (σ1 : Env) (s : Filter),
    @call series_Math (CallPeaking 44100 0 1 6) init_Env = Some (f, σ1) ∧
    heap σ1 !! f = Some s ∧
    is_nan (a0 s) = true ∧ is_nan (a2 s) = true ∧
    ∃ (ys : list float) (σ2 : Env),
      Apply_all f [1; 0] σ1 = Some (ys, σ2) ∧
      length ys = length [1; 0] ∧
      Forall (λ y, is_nan y = true) ys.
Proof.
  apply (@zero_frequency_bandwidth series_Math 44100 1 6
           (CallPeaking 44100 0 1 6) init_Env [1; 0]).
  - exact series_sin_zero.
  - exact series_sinh_nan.
  - apply list_elem_of_further, list_elem_of_further, list_elem_of_here.
Defined.

Lemma zero_q_not_finite_witness :
  ∃ (f : loc) (σ1 : Env) (s : Filter),
    @call series_Math (CallLowShelf 44100 1000 0 6) init_Env = Some (f, σ1) ∧
    heap σ1 !! f = Some s ∧
    is_finite (a0 s) = false ∧ is_finite (a2 s) = false.
Proof.
  apply (@zero_q_not_finite series_Math 44100 1000 0 6
           (CallLowShelf 44100 1000 0 6) init_Env).
  - reflexivity.
  - apply list_elem_of_further, list_elem_of_further, list_elem_of_further,
      list_elem_of_here.
Defined.

(** ** Composing calls *)

(** X6: calls of [Apply] on two different structs commute: the samples
    returned and the state left are the same in either order (and if one of
    the pointers holds no struct, both orders fail). *)
Theorem Apply_commute (f g : loc) (x y : float) (σ : Env) :
  f ≠ g →
  (a ← Apply f x; b ← Apply g y; mret (a, b)) σ =
  (b ← Apply g y; a ← Apply f x; mret (a, b)) σ.
Proof.
  intros Hne.
  destruct (heap σ !! f) as [sf|] eqn:Hf, (heap σ !! g) as [sg|] eqn:Hg.
  - rewrite (bind_run _ _ _ _ _ (Apply_run σ f sf x Hf)).
    rewrite (bind_run _ _ _ _ _ (Apply_run σ g sg y Hg)).
    erewrite bind_run;
      [|apply Apply_run; simpl; rewrite lookup_insert_ne by done; exact Hg].
    erewrite bind_run;
      [|apply Apply_run; simpl; rewrite lookup_insert_ne by done; exact Hf].
    simpl. unfold mret, M_ret. by rewrite insert_insert_ne.
  - rewrite (bind_run _ _ _ _ _ (Apply_run σ f sf x Hf)).
    rewrite (bind_fail _ _ _ (Apply_nil σ g y Hg)).
    apply bind_fail, Apply_nil. simpl. by rewrite lookup_insert_ne.
  - rewrite (bind_fail _ _ _ (Apply_nil σ f x Hf)).
    rewrite (bind_run _ _ _ _ _ (Apply_run σ g sg y Hg)).
    symmetry. apply bind_fail, Apply_nil. simpl. by rewrite lookup_insert_ne.
  - rewrite (bind_fail _ _ _ (Apply_nil σ f x Hf)).
    by rewrite (bind_fail _ _ _ (Apply_nil σ g y Hg)).
Qed.

Lemma Apply_commute_witness :
  (a ← Apply 1%positive 1; b ← Apply 2%positive 0.5; mret (a, b))
    (mkEnv Pi (<[ 2%positive := mkFilter HighPass 0 0 0 0 4 1 0.5 1 (-2) 1 ]>
                 {[ 1%positive := mkFilter LowPass 0 0 0 0 2 1 0.5 1 2 1 ]})) =
  (b ← Apply 2%positive 0.5; a ← Apply 1%positive 1; mret (a, b))
    (mkEnv Pi (<[ 2%positive := mkFilter HighPass 0 0 0 0 4 1 0.5 1 (-2) 1 ]>
                 {[ 1%positive := mkFilter LowPass 0 0 0 0 2 1 0.5 1 2 1 ]})).
Proof.
  apply (Apply_commute 1%positive 2%positive 1 0.5).
  intros Heq. discriminate Heq.
Defined.

(** X7: whatever run of [Apply] and later [SetPi] follows its
    construction, a struct keeps the name and the six coefficients its
    constructor gave it: [Name] still returns the constructor's constant and
    [IsZero] still returns false. *)
Theorem constructed_stays_configured `{Math} (c : Call) (σ : Env)
    (xs : list float) (v : float) :
  ∃ (f : loc) (σ1 : Env) (s1 : Filter) (ys : list float) (σ2 : Env)
    (s2 : Filter),
    call c σ = Some (f, σ1) ∧ heap σ1 !! f = Some s1 ∧
    (ys ← Apply_all f xs; SetPi v;; mret ys) σ1 = Some (ys, σ2) ∧
    heap σ2 !! f = Some s2 ∧
    same_coefficients s1 s2 ∧
    Name f σ2 = Some (kind c, σ2) ∧
    IsZero f σ2 = Some (false, σ2).
Proof.
  destruct (call_run c σ) as (f & _ & Hcall).
  eexists f, _, (built c (p σ)), _, _, _.
  split; [exact Hcall|]. simpl. split; [apply lookup_insert_eq|]. split.
  { erewrite bind_run;
      [|apply Apply_all_run; simpl; apply lookup_insert_eq].
    reflexivity. }
  simpl. split; [apply lookup_insert_eq|].
  pose proof (run_state_coefficients (built c (p σ)) xs) as Hsame.
  split; [exact Hsame|].
  destruct Hsame as [Hname _]. rewrite built_name in Hname.
  unfold Name, IsZero, rd. simpl. rewrite lookup_insert_eq, Hname.
  split; [done|].
  by rewrite bool_decide_eq_false_2 by apply kind_not_Undefined.
Qed.

(** ** A struct at rest *)

(** X8: on a struct whose history is all zeros (as after construction) and
    whose quotients [b1/a0], [b2/a0], [a1/a0], [a2/a0] are finite, the
    first call of [Apply] returns [(b0/a0) * input]: that very value, or a
    zero when the product is a zero. *)
Theorem first_output (σ : Env) (f : loc) (s : Filter) (x : float) :
  heap σ !! f = Some s →
  history_is_zero s = true →
  history_gains_finite s = true →
  ∃ (y : float) (σ' : Env),
    Apply f x σ = Some (y, σ') ∧ same_value y (b0 s / a0 s * x).
Proof.
  intros Hf Hz Hg. eexists _, _. split; [by apply Apply_run|].
  by apply Apply_output_first.
Qed.

Lemma first_output_witness :
  ∃ (y : float) (σ' : Env),
    Apply 1%positive 3
      (mkEnv Pi {[ 1%positive := mkFilter LowPass 0 0 0 0 2 1 0.5 1 2 1 ]}) =
      Some (y, σ') ∧
    same_value y (b0 (mkFilter LowPass 0 0 0 0 2 1 0.5 1 2 1) /
                  a0 (mkFilter LowPass 0 0 0 0 2 1 0.5 1 2 1) * 3).
Proof.
  apply (first_output
           (mkEnv Pi {[ 1%positive := mkFilter LowPass 0 0 0 0 2 1 0.5 1 2 1 ]})
           1%positive (mkFilter LowPass 0 0 0 0 2 1 0.5 1 2 1) 3).
  - reflexivity.
  - reflexivity.
  - reflexivity.
Defined.

(** X9: silence in, silence out: on a struct whose history is all zeros
    and whose five quotients by [a0] are finite, a run of [Apply] over
    zero samples (of either sign) returns only zeros and leaves the history
    all zeros. *)
Theorem silence (σ : Env) (f : loc) (s : Filter) (xs : list float) :
  heap σ !! f = Some s →
  history_is_zero s = true →
  is_finite (b0 s / a0 s) = true →
  history_gains_finite s = true →
  Forall (λ x, is_zero x = true) xs →
  ∃ (ys : list float) (σ' : Env) (s' : Filter),
    Apply_all f xs σ = Some (ys, σ') ∧
    length ys = length xs ∧
    Forall (λ y, is_zero y = true) ys ∧
    heap σ' !! f = Some s' ∧ history_is_zero s' = true.
Proof.
  intros Hf Hz H0 Hg Hxs.
  destruct (run_zero s xs H0 Hg Hz Hxs) as [Hys Hs'].
  eexists _, _, _. split; [by apply Apply_all_run|].
  split; [apply run_outputs_length|]. split; [exact Hys|]. simpl.
  split; [apply lookup_insert_eq|exact Hs'].
Qed.

Lemma silence_witness :
  ∃ (ys : list float) (σ' : Env) (s' : Filter),
    Apply_all 1%positive [0; -0; 0]
      (mkEnv Pi {[ 1%positive := mkFilter LowPass 0 0 0 0 2 1 0.5 1 2 1 ]}) =
      Some (ys, σ') ∧
    length ys = length [0; -0; 0] ∧
    Forall (λ y, is_zero y = true) ys ∧
    heap σ' !! 1%positive = Some s' ∧ history_is_zero s' = true.
Proof.
  apply (silence
           (mkEnv Pi {[ 1%positive := mkFilter LowPass 0 0 0 0 2 1 0.5 1 2 1 ]})
           1%positive (mkFilter LowPass 0 0 0 0 2 1 0.5 1 2 1) [0; -0; 0]).
  - reflexivity.
  - reflexivity.
  - reflexivity.
  - reflexivity.
  - repeat constructor.
Defined.

(** ** The two channels of the example *)

(** X10: with two different structs, the loop of [main] filters the two
    channels apart: the outputs at even positions are what [Apply] on [f0]
    returns on the inputs at even positions, those at odd positions what
    [Apply] on [f1] returns on the inputs at odd positions, and each struct
    ends as after its own run. *)
Theorem main_loop_channels (f0 f1 : loc) (s0 s1 : Filter) (xs : list float)
    (σ : Env) :
  f0 ≠ f1 →
  heap σ !! f0 = Some s0 →
  heap σ !! f1 = Some s1 →
  ∃ (ys : list float) (σ' σa σb : Env),
    main_loop f0 f1 0 xs σ = Some (ys, σ') ∧
    length ys = length xs ∧
    Apply_all f0 (every_other xs) σ = Some (every_other ys, σa) ∧
    Apply_all f1 (every_other (tail xs)) σ = Some (every_other (tail ys), σb) ∧
    heap σ' !! f0 = heap σa !! f0 ∧
    heap σ' !! f1 = heap σb !! f1 ∧
    p σ' = p σ.
Proof.
  intros Hne H0 H1.
  destruct (main_loop_run f0 f1 xs Hne σ s0 s1 H0 H1) as [Hrun _].
  destruct (loop_outputs_channels s0 s1 xs) as [Hl Hr].
  eexists _, _, _, _. split; [exact Hrun|].
  split; [apply loop_outputs_length|].
  rewrite Hl, Hr.
  split; [by apply Apply_all_run|]. split; [by apply Apply_all_run|].
  simpl. rewrite !lookup_insert_eq.
  rewrite lookup_insert_ne by done. by rewrite lookup_insert_eq.
Qed.

Lemma main_loop_channels_witness :
  ∃ (ys : list float) (σ' σa σb : Env),
    main_loop 1%positive 2%positive 0 [1; 2; 3]
      (mkEnv Pi (<[ 2%positive := mkFilter HighPass 0 0 0 0 4 1 0.5 1 (-2) 1 ]>
                   {[ 1%positive := mkFilter LowPass 0 0 0 0 2 1 0.5 1 2 1 ]})) =
      Some (ys, σ') ∧
    length ys = length [1; 2; 3] ∧
    Apply_all 1%positive (every_other [1; 2; 3])
      (mkEnv Pi (<[ 2%positive := mkFilter HighPass 0 0 0 0 4 1 0.5 1 (-2) 1 ]>
                   {[ 1%positive := mkFilter LowPass 0 0 0 0 2 1 0.5 1 2 1 ]})) =
      Some (every_other ys, σa) ∧
    Apply_all 2%positive (every_other (tail [1; 2; 3]))
      (mkEnv Pi (<[ 2%positive := mkFilter HighPass 0 0 0 0 4 1 0.5 1 (-2) 1 ]>
                   {[ 1%positive := mkFilter LowPass 0 0 0 0 2 1 0.5 1 2 1 ]})) =
      Some (every_other (tail ys), σb) ∧
    heap σ' !! 1%positive = heap σa !! 1%positive ∧
    heap σ' !! 2%positive = heap σb !! 2%positive ∧
    p σ' =
      p (mkEnv Pi (<[ 2%positive := mkFilter HighPass 0 0 0 0 4 1 0.5 1 (-2) 1 ]>
                     {[ 1%positive := mkFilter LowPass 0 0 0 0 2 1 0.5 1 2 1 ]})).
Proof.
  apply (main_loop_channels 1%positive 2%positive
           (mkFilter LowPass 0 0 0 0 2 1 0.5 1 2 1)
           (mkFilter HighPass 0 0 0 0 4 1 0.5 1 (-2) 1) [1; 2; 3]).
  - intros Heq. discriminate Heq.
  - reflexivity.
  - reflexivity.
Defined.

End equalizer.
